(** * Resilience core of the clean-platform services

  Shallow embedding of
  - [services/common/circuit_breaker.py]  (rolling metrics window and the
    CLOSED / OPEN / HALF_OPEN breaker), and
  - [services/kafka-consumer/optimized_consumer.py]  (batching consumer,
    offset commit, dead-letter routing),
  together with the properties the specification states about them.

  Conventions.  Python integers are [Z].  Clock readings ([time.time()],
  [datetime.now()]) and durations are floats in the source; they are
  embedded as [Z] points of a discrete clock, every reading being an explicit
  argument of the method that takes it.  The failure rate, a quotient of two
  integers, is an exact rational ([Q]).  The locks of the source serialise the
  bodies they guard; each guarded body is one function here. *)

From Stdlib Require Import ZArith QArith Lia.
From stdpp Require Import base list strings pretty gmap.

Close Scope Q_scope.
Local Open Scope Z_scope.

(** Python exceptions: the class name and [str(e)]. *)
Record Exn := { exn_type : string; exn_msg : string }.

(** A clock reading pair taken by the metrics recorder:
  [time.time()] for the window entry and [datetime.now()] for the
  last-success / last-failure field. *)
Record Stamp := { time_time : Z; datetime_now : Z }.

(* ===================================================================== *)
(** ** collections.deque(maxlen=n) *)
(* ===================================================================== *)

Module deque.

(** [append]: push on the right, then drop one entry on the left when the
    bound is exceeded (with [maxlen = 0] nothing is ever kept). *)
Definition append {A} (maxlen : nat) (x : A) (d : list A) : list A :=
  let d' := d ++ [x] in
  if (maxlen <? length d')%nat then tail d' else d'.

(** The last [maxlen] elements of a history. *)
Definition window {A} (maxlen : nat) (l : list A) : list A :=
  drop (length l - maxlen) l.

End deque.

(* ===================================================================== *)
(** ** class CircuitBreakerMetrics *)
(* ===================================================================== *)

Module CircuitBreakerMetrics.

(** One entry of [self.calls]. *)
Record entry := {
  success : bool;
  timestamp : Z;
  duration : Z;
  error : option string
}.

Record t := {
  window_size : nat;          (* deque(maxlen=window_size): a negative
                                 bound raises ValueError, no object exists *)
  calls : list entry;         (* oldest first *)
  total_calls : Z;
  successful_calls : Z;
  failed_calls : Z;
  rejected_calls : Z;
  last_failure_time : option Z;
  last_success_time : option Z;
  circuit_opened_at : option Z
}.

Definition __init__ (window_size : nat) : t :=
  {| window_size := window_size; calls := [];
     total_calls := 0; successful_calls := 0;
     failed_calls := 0; rejected_calls := 0;
     last_failure_time := None; last_success_time := None;
     circuit_opened_at := None |}.

Definition success_entry (st : Stamp) (d : Z) : entry :=
  {| success := true; timestamp := time_time st; duration := d;
     error := None |}.

Definition failure_entry (st : Stamp) (e : Exn) (d : Z) : entry :=
  {| success := false; timestamp := time_time st; duration := d;
     error := Some (exn_msg e) |}.

Definition record_success (st : Stamp) (d : Z) (m : t) : t :=
  {| window_size := window_size m;
     calls := deque.append (window_size m) (success_entry st d) (calls m);
     total_calls := total_calls m + 1;
     successful_calls := successful_calls m + 1;
     failed_calls := failed_calls m;
     rejected_calls := rejected_calls m;
     last_failure_time := last_failure_time m;
     last_success_time := Some (datetime_now st);
     circuit_opened_at := circuit_opened_at m |}.

Definition record_failure (st : Stamp) (e : Exn) (d : Z) (m : t) : t :=
  {| window_size := window_size m;
     calls := deque.append (window_size m) (failure_entry st e d) (calls m);
     total_calls := total_calls m + 1;
     successful_calls := successful_calls m;
     failed_calls := failed_calls m + 1;
     rejected_calls := rejected_calls m;
     last_failure_time := Some (datetime_now st);
     last_success_time := last_success_time m;
     circuit_opened_at := circuit_opened_at m |}.

Definition record_rejection (m : t) : t :=
  {| window_size := window_size m;
     calls := calls m;
     total_calls := total_calls m + 1;
     successful_calls := successful_calls m;
     failed_calls := failed_calls m;
     rejected_calls := rejected_calls m + 1;
     last_failure_time := last_failure_time m;
     last_success_time := last_success_time m;
     circuit_opened_at := circuit_opened_at m |}.

(** [sum(1 for call in self.calls if not call['success'])] *)
Definition failures (l : list entry) : nat :=
  length (filter (fun c => success c = false) l).

Definition get_failure_rate (m : t) : Q :=
  match calls m with
  | [] => 0%Q
  | _ => (inject_Z (Z.of_nat (failures (calls m)))
          / inject_Z (Z.of_nat (length (calls m))))%Q
  end.

Definition set_circuit_opened_at (o : option Z) (m : t) : t :=
  {| window_size := window_size m;
     calls := calls m;
     total_calls := total_calls m;
     successful_calls := successful_calls m;
     failed_calls := failed_calls m;
     rejected_calls := rejected_calls m;
     last_failure_time := last_failure_time m;
     last_success_time := last_success_time m;
     circuit_opened_at := o |}.

(** What a caller can ask the recorder to do. *)
Inductive event :=
| Success (st : Stamp) (d : Z)
| Failure (st : Stamp) (e : Exn) (d : Z)
| Rejection.

Definition record (ev : event) (m : t) : t :=
  match ev with
  | Success st d => record_success st d m
  | Failure st e d => record_failure st e d m
  | Rejection => record_rejection m
  end.

Definition play (evs : list event) (m : t) : t :=
  foldl (fun m ev => record ev m) m evs.

(** The window entries a sequence of events produces, in order
    (a rejection produces none). *)
Definition entries (evs : list event) : list entry :=
  flat_map (fun ev => match ev with
                      | Success st d => [success_entry st d]
                      | Failure st e d => [failure_entry st e d]
                      | Rejection => []
                      end) evs.

End CircuitBreakerMetrics.

(* ===================================================================== *)
(** ** class CircuitBreaker *)
(* ===================================================================== *)

Inductive CircuitState := CLOSED | OPEN | HALF_OPEN.

Module CircuitBreaker.

Section WithCallable.

(** Arguments and results of the protected callable. *)
Context {Args Value : Type}.

(** What invoking a Python callable does: return a value or raise. *)
Inductive outcome :=
| Returned (v : Value)
| Raised (e : Exn).

(** Constructor arguments (never assigned after [__init__]).
    [expected_exception e] is [isinstance(e, self.expected_exception)]. *)
Record config := {
  name : string;
  failure_threshold : Z;
  recovery_timeout : Z;
  expected_exception : Exn -> bool;
  success_threshold : Z;
  failure_rate_threshold : Q;
  fallback_function : option (Args -> outcome)
}.

(** The mutable part of the object.  [state_changes] is the sequence of
    [_notify_state_change] invocations so far (every registered listener is
    called with that state; what a listener raises is logged and dropped). *)
Record t := {
  cfg : config;
  _state : CircuitState;
  _failure_count : Z;
  _success_count : Z;
  _last_failure_time : option Z;
  metrics : CircuitBreakerMetrics.t;
  state_changes : list CircuitState
}.

Definition __init__ (c : config) (window_size : nat) : t :=
  {| cfg := c; _state := CLOSED; _failure_count := 0; _success_count := 0;
     _last_failure_time := None;
     metrics := CircuitBreakerMetrics.__init__ window_size;
     state_changes := [] |}.

(** [self._last_failure_time and time.time() - self._last_failure_time >=
    self.recovery_timeout], as a truth value: [None] and [0.0] are falsy. *)
Definition _should_attempt_reset (now : Z) (b : t) : bool :=
  match _last_failure_time b with
  | None => false
  | Some lf => if lf =? 0 then false
               else recovery_timeout (cfg b) <=? now - lf
  end.

Definition _transition_to_open (opened_at : Z) (b : t) : t :=
  {| cfg := cfg b; _state := OPEN; _failure_count := 0; _success_count := 0;
     _last_failure_time := _last_failure_time b;
     metrics :=
       CircuitBreakerMetrics.set_circuit_opened_at (Some opened_at) (metrics b);
     state_changes := state_changes b ++ [OPEN] |}.

Definition _transition_to_half_open (b : t) : t :=
  {| cfg := cfg b; _state := HALF_OPEN; _failure_count := 0;
     _success_count := 0;
     _last_failure_time := _last_failure_time b;
     metrics := metrics b;
     state_changes := state_changes b ++ [HALF_OPEN] |}.

Definition _transition_to_closed (b : t) : t :=
  {| cfg := cfg b; _state := CLOSED; _failure_count := 0; _success_count := 0;
     _last_failure_time := _last_failure_time b;
     metrics := CircuitBreakerMetrics.set_circuit_opened_at None (metrics b);
     state_changes := state_changes b ++ [CLOSED] |}.

Definition with_metrics (m : CircuitBreakerMetrics.t) (b : t) : t :=
  {| cfg := cfg b; _state := _state b; _failure_count := _failure_count b;
     _success_count := _success_count b;
     _last_failure_time := _last_failure_time b;
     metrics := m; state_changes := state_changes b |}.

Definition with_failure_count (n : Z) (b : t) : t :=
  {| cfg := cfg b; _state := _state b; _failure_count := n;
     _success_count := _success_count b;
     _last_failure_time := _last_failure_time b;
     metrics := metrics b; state_changes := state_changes b |}.

Definition with_success_count (n : Z) (b : t) : t :=
  {| cfg := cfg b; _state := _state b; _failure_count := _failure_count b;
     _success_count := n;
     _last_failure_time := _last_failure_time b;
     metrics := metrics b; state_changes := state_changes b |}.

Definition with_last_failure_time (now : Z) (b : t) : t :=
  {| cfg := cfg b; _state := _state b; _failure_count := _failure_count b;
     _success_count := _success_count b;
     _last_failure_time := Some now;
     metrics := metrics b; state_changes := state_changes b |}.

(** The [state] property executed at clock reading [now]: the breaker after
    the lazy OPEN -> HALF_OPEN check. *)
Definition state_refresh (now : Z) (b : t) : t :=
  match _state b with
  | OPEN => if _should_attempt_reset now b
            then _transition_to_half_open b else b
  | _ => b
  end.

(** The value the [state] property returns, with the breaker it leaves. *)
Definition state (now : Z) (b : t) : CircuitState * t :=
  let b' := state_refresh now b in (_state b', b').

Definition _on_success (st : Stamp) (d : Z) (b : t) : t :=
  let b1 := with_metrics
              (CircuitBreakerMetrics.record_success st d (metrics b)) b in
  match _state b1 with
  | HALF_OPEN =>
      let b2 := with_success_count (_success_count b1 + 1) b1 in
      if success_threshold (cfg b2) <=? _success_count b2
      then _transition_to_closed b2 else b2
  | _ => with_failure_count 0 b1
  end.

(** [st] is read by [record_failure], [now] by [_on_failure] itself for
    [_last_failure_time], [opened_at] by [_transition_to_open]. *)
Definition _on_failure (st : Stamp) (now opened_at : Z) (e : Exn) (d : Z)
    (b : t) : t :=
  let b1 := with_metrics
              (CircuitBreakerMetrics.record_failure st e d (metrics b)) b in
  let b2 := with_last_failure_time now b1 in
  match _state b2 with
  | CLOSED =>
      let b3 := with_failure_count (_failure_count b2 + 1) b2 in
      if (failure_threshold (cfg b3) <=? _failure_count b3)
         || Qle_bool (failure_rate_threshold (cfg b3))
                     (CircuitBreakerMetrics.get_failure_rate (metrics b3))
      then _transition_to_open opened_at b3 else b3
  | HALF_OPEN => _transition_to_open opened_at b2
  | OPEN => b2
  end.

Definition reset (b : t) : t := _transition_to_closed b.

(** The clock readings one [call] may take, in program order. *)
Record call_clock := {
  at_check : Z;        (* [self.state] on entry *)
  at_start : Z;        (* [start_time] *)
  at_end : Z;          (* after the callable returned or raised *)
  at_record : Stamp;   (* inside the metrics recorder *)
  at_stamp : Z;        (* [_last_failure_time = time.time()] *)
  at_opened : Z;       (* [circuit_opened_at = datetime.now()] *)
  at_recheck : Z       (* [self.state] in the exception handler *)
}.

(** How [call] ends. *)
Inductive call_result :=
| Result (v : Value)
| Error (e : Exn)                      (* an exception propagates *)
| CircuitBreakerError (msg : string).

Record report := {
  result : call_result;
  invoked_func : bool;       (* the wrapped callable ran *)
  invoked_fallback : bool    (* the fallback ran *)
}.

Definition of_outcome (o : outcome) : call_result :=
  match o with
  | Returned v => Result v
  | Raised e => Error e
  end.

Definition open_message (b : t) : string :=
  ("Circuit breaker '" ++ name (cfg b) ++ "' is OPEN")%string.

Definition call (ck : call_clock) (func : Args -> outcome) (args : Args)
    (b : t) : report * t :=
  let (s, b1) := state (at_check ck) b in
  match s with
  | OPEN =>
      let b2 := with_metrics
                  (CircuitBreakerMetrics.record_rejection (metrics b1)) b1 in
      match fallback_function (cfg b2) with
      | Some fb =>
          ({| result := of_outcome (fb args);
              invoked_func := false; invoked_fallback := true |}, b2)
      | None =>
          ({| result := CircuitBreakerError (open_message b2);
              invoked_func := false; invoked_fallback := false |}, b2)
      end
  | _ =>
      match func args with
      | Returned v =>
          ({| result := Result v;
              invoked_func := true; invoked_fallback := false |},
           _on_success (at_record ck) (at_end ck - at_start ck) b1)
      | Raised e =>
          if expected_exception (cfg b1) e then
            let b2 := _on_failure (at_record ck) (at_stamp ck) (at_opened ck)
                                  e (at_end ck - at_start ck) b1 in
            let (s', b3) := state (at_recheck ck) b2 in
            match s', fallback_function (cfg b3) with
            | HALF_OPEN, Some fb =>
                ({| result := of_outcome (fb args);
                    invoked_func := true; invoked_fallback := true |}, b3)
            | _, _ =>
                ({| result := Error e;
                    invoked_func := true; invoked_fallback := false |}, b3)
            end
          else
            ({| result := Error e;
                invoked_func := true; invoked_fallback := false |}, b1)
      end
  end.

(** The bodies that run under [_state_lock] (and the rejection counter):
    any concurrent use of one breaker is an interleaving of these. *)
Inductive op :=
| Query (now : Z)                                        (* [state] *)
| Succeed (st : Stamp) (d : Z)                           (* [_on_success] *)
| Fail (st : Stamp) (now opened_at : Z) (e : Exn) (d : Z) (* [_on_failure] *)
| Reject                                      (* [metrics.record_rejection] *)
| Reset.                                                 (* [reset] *)

Definition step (o : op) (b : t) : t :=
  match o with
  | Query now => state_refresh now b
  | Succeed st d => _on_success st d b
  | Fail st now opened_at e d => _on_failure st now opened_at e d b
  | Reject =>
      with_metrics (CircuitBreakerMetrics.record_rejection (metrics b)) b
  | Reset => reset b
  end.

Definition run (ops : list op) (b : t) : t :=
  foldl (fun b o => step o b) b ops.

(** A breaker some execution can produce from a fresh one. *)
Definition reachable (b : t) : Prop :=
  exists c w ops, b = run ops (__init__ c w).


Definition is_query (o : op) : bool :=
  match o with Query _ => true | _ => false end.


(** Counters never go negative, and an open breaker has a failure time. *)
Definition well_formed (b : t) : Prop :=
  0 <= _failure_count b
  /\ 0 <= _success_count b
  /\ (_state b = OPEN -> exists lf, _last_failure_time b = Some lf).


(** A sequence of [call]s, each with its own callable and clock. *)
Definition attempt : Type := call_clock * (Args -> outcome) * Args.

Definition call_all (atts : list attempt) (b : t) : t :=
  foldl (fun b a => let '(ck, f, x) := a in snd (call ck f x b)) b atts.

(** The callable of an attempt returns normally. *)
Definition succeeds (a : attempt) : Prop :=
  let '(_, f, x) := a in exists v, f x = Returned v.

End WithCallable.

Arguments outcome : clear implicits.
Arguments config : clear implicits.
Arguments t : clear implicits.
Arguments call_result : clear implicits.
Arguments report : clear implicits.
Arguments attempt : clear implicits.
Arguments op : clear implicits.

End CircuitBreaker.

(* ===================================================================== *)
(** ** threading.Lock, as one thread sees it *)
(* ===================================================================== *)

Module threading.

(** A computation either returns or blocks for ever in [acquire]. *)
Inductive blocking (A : Type) :=
| Returns (a : A)
| Deadlock.

Arguments Returns {A} a.
Arguments Deadlock {A}.

Definition bind {A B} (x : blocking A) (k : A -> blocking B) : blocking B :=
  match x with
  | Returns a => k a
  | Deadlock => Deadlock
  end.

(** [with lock: body].  [held] says that the calling thread holds the lock
    already; a [threading.Lock] is not re-entrant, so acquiring it again
    never returns (no other code releases it).  The body runs with the lock
    held. *)
Definition with_lock {A} (held : bool) (body : bool -> blocking A)
    : blocking A :=
  if held then Deadlock else body true.

End threading.

(* ===================================================================== *)
(** ** class OptimizedKafkaConsumer *)
(* ===================================================================== *)

(** The consumer's effects on its collaborators (message handler,
    error-handler callback, Kafka consumer and DLQ producer handles, threads)
    are recorded as a trace.  The Prometheus counters and the info / debug
    log lines are left out: they do not raise and nothing reads them back.
    The poll loop observes a signal delivered while the consumer polls; a
    signal delivered while the main thread holds [batch_lock] ends the run
    of that thread and is modelled apart ([stop] with the lock held). *)

Module OptimizedKafkaConsumer.

(** [kafka.TopicPartition(topic, partition)] *)
Abbreviation TopicPartition := (string * Z)%type.

(** A record as the Kafka client delivers it. *)
Record ConsumerRecord := {
  r_topic : string;
  r_partition : Z;
  r_offset : Z;
  r_key : option string;
  r_value : string;
  r_timestamp : Z;
  r_headers : list (string * string)
}.

(** The message dictionary of [_add_to_batch]; [retry_count] is
    [message.get('retry_count')], a key that [_add_to_batch] never sets. *)
Record Message := {
  topic : string;
  partition : Z;
  offset : Z;
  key : option string;
  value : string;
  timestamp : Z;
  headers : gmap string string;
  retry_count : option Z
}.

(** The fields of [ConsumerConfig] that the consumer's own code reads (the
    others only parameterise the Kafka client). *)
Record ConsumerConfig := {
  consumer_group : string;
  topics : list string;
  batch_size : Z;
  batch_timeout_ms : Z;
  num_workers : Z;
  enable_dlq : bool;
  dlq_topic : option string
}.

(** The payload [_send_to_dlq] publishes. *)
Record DlqMessage := {
  original_message : Message;
  dlq_error : string;
  dlq_error_type : string;
  dlq_timestamp : Z;
  dlq_consumer_group : string;
  dlq_retry_count : Z
}.

(** Everything the consumer does to its collaborators, in program order.
    A callback event stands for the whole invocation and carries how it
    ended ([None]: returned, [Some e]: raised [e]). *)
Inductive event :=
| ThreadStarted (thread_name : string)
| Polled
| HandlerCalled (batch : list Message) (raised : option Exn)
| CommitCalled (offsets : gmap TopicPartition Z)
| ErrorHandlerCalled (error : Exn) (msg : Message) (raised : option Exn)
| DlqSent (dlq_topic : string) (value : DlqMessage) (key : option string)
| LoggedError (text : string)
| ThreadJoined (thread_name : string)
| ConsumerClosed
| ProducerClosed.

(** How [self.consumer.commit] ends. *)
Inductive commit_outcome :=
| Committed
| CommitFailedError (e : Exn)
| CommitRaised (e : Exn).       (* any other exception *)

(** How [self.consumer.poll] ends; [Interrupted] is a SIGTERM / SIGINT
    delivered while polling, which runs [_signal_handler].  The main thread
    holds no lock while it polls; a signal delivered inside one of the
    [with self.batch_lock] blocks is [_add_to_batch_signalled] and
    [_check_batch_timeout_signalled] below. *)
Inductive poll_outcome :=
| Records (by_partition : list (TopicPartition * list ConsumerRecord))
| PollRaised (e : Exn)
| Interrupted.

(** The collaborators.  Each may depend on everything that happened before
    (the trace so far), so stateful handlers and brokers are covered. *)
Record collaborators := {
  message_handler : list event -> list Message -> option Exn;
  error_handler : list event -> Exn -> Message -> option Exn;
  consumer_commit : list event -> gmap TopicPartition Z -> commit_outcome;
  consumer_poll : list event -> poll_outcome;
  dlq_producer_send :
    list event -> string -> DlqMessage -> option string -> option Exn;
  clock : list event -> Z           (* [time.time()] *)
}.

Record t := {
  config : ConsumerConfig;
  dlq_producer : bool;               (* a producer object, or [None] *)
  running : bool;
  processing_threads : list string;
  batch_queue : list Message;
  last_batch_time : Z;
  trace : list event
}.

(** How a call of [stop] ends for the thread that makes it: it returns, or
    it blocks for ever in the acquire of [batch_lock].  Either way [c] is
    the consumer it leaves. *)
Inductive stop_outcome :=
| Stopped (c : t)
| BlockedOnBatchLock (c : t).

Definition left_by (o : stop_outcome) : t :=
  match o with
  | Stopped c | BlockedOnBatchLock c => c
  end.

Section WithCollaborators.

Variable w : collaborators.

Definition __init__ (cf : ConsumerConfig) : t :=
  {| config := cf;
     dlq_producer := enable_dlq cf;
     running := false;
     processing_threads := [];
     batch_queue := [];
     last_batch_time := clock w [];
     trace := [] |}.

Definition emit (ev : event) (c : t) : t :=
  {| config := config c; dlq_producer := dlq_producer c;
     running := running c; processing_threads := processing_threads c;
     batch_queue := batch_queue c; last_batch_time := last_batch_time c;
     trace := trace c ++ [ev] |}.

Definition with_running (r : bool) (c : t) : t :=
  {| config := config c; dlq_producer := dlq_producer c;
     running := r; processing_threads := processing_threads c;
     batch_queue := batch_queue c; last_batch_time := last_batch_time c;
     trace := trace c |}.

Definition with_threads (ths : list string) (c : t) : t :=
  {| config := config c; dlq_producer := dlq_producer c;
     running := running c; processing_threads := ths;
     batch_queue := batch_queue c; last_batch_time := last_batch_time c;
     trace := trace c |}.

Definition with_batch (q : list Message) (last : Z) (c : t) : t :=
  {| config := config c; dlq_producer := dlq_producer c;
     running := running c; processing_threads := processing_threads c;
     batch_queue := q; last_batch_time := last;
     trace := trace c |}.

(** [self.config.dlq_topic or f"{message['topic']}-dlq"]: [None] and the
    empty string are falsy. *)
Definition dlq_topic_for (cf : ConsumerConfig) (m : Message) : string :=
  match dlq_topic cf with
  | Some (String a s) => String a s
  | _ => (topic m ++ "-dlq")%string
  end.

Definition dlq_message_for (cf : ConsumerConfig) (now : Z) (m : Message)
    (err : Exn) : DlqMessage :=
  {| original_message := m;
     dlq_error := exn_msg err;
     dlq_error_type := exn_type err;
     dlq_timestamp := now;
     dlq_consumer_group := consumer_group cf;
     dlq_retry_count := default 0 (retry_count m) + 1 |}.

Definition _send_to_dlq (m : Message) (err : Exn) (c : t) : t :=
  let tp := dlq_topic_for (config c) m in
  let dm := dlq_message_for (config c) (clock w (trace c)) m err in
  let c1 := emit (DlqSent tp dm (key m)) c in
  match dlq_producer_send w (trace c) tp dm (key m) with
  | None => c1
  | Some e => emit (LoggedError ("Failed to send to DLQ: " ++ exn_msg e)) c1
  end.

(** One iteration of the loop of [_handle_batch_error]. *)
Definition handle_message_error (err : Exn) (c : t) (m : Message) : t :=
  let r := error_handler w (trace c) err m in
  let c1 := emit (ErrorHandlerCalled err m r) c in
  match r with
  | None =>
      if enable_dlq (config c1) && dlq_producer c1
      then _send_to_dlq m err c1 else c1
  | Some e => emit (LoggedError ("Error in error handler: " ++ exn_msg e)) c1
  end.

Definition _handle_batch_error (batch : list Message) (err : Exn) (c : t)
    : t :=
  foldl (handle_message_error err) c batch.

(** The dictionary [_commit_batch_offsets] builds: a later message of a
    partition overwrites the entry of an earlier one. *)
Definition batch_offsets (batch : list Message)
    : gmap TopicPartition Z :=
  foldl (fun offs m => <[(topic m, partition m) := offset m + 1]> offs)
        ∅ batch.

(** Returns the exception that escapes, if any. *)
Definition _commit_batch_offsets (batch : list Message) (c : t)
    : option Exn * t :=
  let offs := batch_offsets batch in
  let c1 := emit (CommitCalled offs) c in
  match consumer_commit w (trace c) offs with
  | Committed => (None, c1)
  | CommitFailedError e =>
      (None, emit (LoggedError ("Failed to commit offsets: " ++ exn_msg e)) c1)
  | CommitRaised e => (Some e, c1)
  end.

Definition _process_batch (batch : list Message) (c : t) : t :=
  let r := message_handler w (trace c) batch in
  let c1 := emit (HandlerCalled batch r) c in
  match r with
  | None =>
      match _commit_batch_offsets batch c1 with
      | (None, c2) => c2
      | (Some e, c2) =>
          _handle_batch_error batch e
            (emit (LoggedError ("Error processing batch: " ++ exn_msg e)) c2)
      end
  | Some e =>
      _handle_batch_error batch e
        (emit (LoggedError ("Error processing batch: " ++ exn_msg e)) c1)
  end.

Definition _flush_batch (c : t) : t :=
  match batch_queue c with
  | [] => c
  | batch => _process_batch batch (with_batch [] (clock w (trace c)) c)
  end.

(** [dict(record.headers)]: a repeated header keeps its last value. *)
Definition headers_dict (hs : list (string * string)) : gmap string string :=
  foldl (fun d kv => <[kv.1 := kv.2]> d) ∅ hs.

Definition message_of (r : ConsumerRecord) : Message :=
  {| topic := r_topic r; partition := r_partition r; offset := r_offset r;
     key := r_key r; value := r_value r; timestamp := r_timestamp r;
     headers := headers_dict (r_headers r);
     retry_count := None |}.

Definition _add_to_batch (r : ConsumerRecord) (c : t) : t :=
  let c1 := with_batch (batch_queue c ++ [message_of r])
                       (last_batch_time c) c in
  if batch_size (config c1) <=? Z.of_nat (length (batch_queue c1))
  then _flush_batch c1 else c1.

Definition _check_batch_timeout (c : t) : t :=
  let elapsed := (clock w (trace c) - last_batch_time c) * 1000 in
  if (batch_timeout_ms (config c) <=? elapsed)
     && bool_decide (batch_queue c <> [])
  then _flush_batch c else c.

(** [stop].  Its only caller is [_signal_handler], and a signal handler
    runs on the main thread, on top of whatever that thread was doing;
    [held] says whether that was inside one of the [with self.batch_lock]
    blocks (of [_add_to_batch] and [_check_batch_timeout]; no other thread
    takes the lock).  [running] is cleared before the lock is asked for. *)
Definition stop (held : bool) (c : t) : stop_outcome :=
  let c0 := with_running false c in
  match threading.with_lock held
          (fun _ => threading.Returns (_flush_batch c0)) with
  | threading.Deadlock => BlockedOnBatchLock c0
  | threading.Returns c1 =>
      let c2 := foldl (fun c th => emit (ThreadJoined th) c) c1
                      (processing_threads c1) in
      let c3 := emit ConsumerClosed c2 in
      Stopped (if dlq_producer c3 then emit ProducerClosed c3 else c3)
  end.



(** One pass through the body of [while self.running]. *)
Definition consume_once (c : t) : t :=
  let r := consumer_poll w (trace c) in
  let c1 := emit Polled c in
  match r with
  | Records [] => _check_batch_timeout c1
  | Records parts =>
      foldl (fun c p => foldl (fun c r => _add_to_batch r c) c p.2) c1 parts
  | PollRaised e =>
      emit (LoggedError ("Kafka consumer error: " ++ exn_msg e)) c1
  | Interrupted => left_by (stop false c1)
  end.

(** [_consume_messages], observed for at most [fuel] passes: the loop itself
    ends only when [running] has been cleared. *)
Fixpoint _consume_messages (fuel : nat) (c : t) : t :=
  match fuel with
  | O => c
  | S fuel' =>
      if running c then _consume_messages fuel' (consume_once c) else c
  end.

Definition worker_name (i : nat) : string :=
  ("kafka-worker-" ++ pretty i)%string.

(** The body of [start] up to the call of [_consume_messages]. *)
Definition start_threads (c : t) : t :=
  let c1 := with_running true c in
  let c2 := foldl (fun c i =>
                     with_threads (processing_threads c ++ [worker_name i])
                                  (emit (ThreadStarted (worker_name i)) c))
                  c1 (seq 0 (Z.to_nat (num_workers (config c1)))) in
  emit (ThreadStarted "lag-monitor") c2.

Definition start (fuel : nat) (c : t) : t :=
  _consume_messages fuel (start_threads c).

(** The entry points that touch the open batch, each entered with
    [batch_lock] free; [Stop] is the signal handler run between two of
    them. *)
Inductive op :=
| AddToBatch (r : ConsumerRecord)
| CheckBatchTimeout
| FlushBatch
| ConsumeOnce
| Stop.

Definition step (o : op) (c : t) : t :=
  match o with
  | AddToBatch r => _add_to_batch r c
  | CheckBatchTimeout => _check_batch_timeout c
  | FlushBatch => _flush_batch c
  | ConsumeOnce => consume_once c
  | Stop => left_by (stop false c)
  end.

Definition run (ops : list op) (c : t) : t :=
  foldl (fun c o => step o c) c ops.

End WithCollaborators.

(** Projections of a trace. *)
Definition handler_batches (tr : list event) : list (list Message) :=
  omap (fun ev => match ev with
                  | HandlerCalled b _ => Some b | _ => None end) tr.

Definition commits (tr : list event) : list (gmap TopicPartition Z) :=
  omap (fun ev => match ev with
                  | CommitCalled o => Some o | _ => None end) tr.

Definition dlq_sends (tr : list event)
    : list (string * DlqMessage * option string) :=
  omap (fun ev => match ev with
                  | DlqSent tp v k => Some (tp, v, k) | _ => None end) tr.

Definition threads_started (tr : list event) : list string :=
  omap (fun ev => match ev with
                  | ThreadStarted n => Some n | _ => None end) tr.

Definition polls (tr : list event) : nat :=
  length (omap (fun ev => match ev with
                          | Polled => Some tt | _ => None end) tr).

(** Events that are log lines only. *)
Definition is_log (ev : event) : Prop :=
  match ev with LoggedError _ => True | _ => False end.

(** [c'] differs from [c] at most in its trace and last flush time. *)
Definition frame (c c' : t) : Prop :=
  config c' = config c
  /\ dlq_producer c' = dlq_producer c
  /\ running c' = running c
  /\ processing_threads c' = processing_threads c
  /\ batch_queue c' = batch_queue c.

(** A batch the handler may be given: not empty, at most [batch_size]. *)
Definition batch_ok (cf : ConsumerConfig) (batch : list Message) : Prop :=
  batch <> [] /\ Z.of_nat (length batch) <= batch_size cf.

(** The open buffer is below [batch_size] and every batch handed to the
    handler so far was well sized. *)
Definition buffer_invariant (c : t) : Prop :=
  Z.of_nat (length (batch_queue c)) < batch_size (config c)
  /\ Forall (batch_ok (config c)) (handler_batches (trace c)).

(** Offsets that never go down along the list. *)
Definition nondecreasing (l : list Z) : Prop :=
  forall i j x y, (i < j)%nat -> l !! i = Some x -> l !! j = Some y -> x <= y.

(** The offsets of the messages of one partition, in batch order. *)
Definition offsets_of (tp : TopicPartition) (batch : list Message)
    : list Z :=
  offset <$> filter (fun m => (topic m, partition m) = tp) batch.

Definition max_offset (tp : TopicPartition) (batch : list Message)
    : option Z :=
  match offsets_of tp batch with
  | [] => None
  | x :: xs => Some (foldl Z.max x xs)
  end.

Definition last_offset (tp : TopicPartition) (batch : list Message)
    : option Z :=
  last (offsets_of tp batch).

End OptimizedKafkaConsumer.

(* ===================================================================== *)
(** ** The specification's wording, for comparison with the code *)
(* ===================================================================== *)

Module Spec.

Import CircuitBreakerMetrics.

(** The failure rate as the specification words it: the failures among the
    last [min(W, total_calls)] recorded calls, over [min(W, total_calls)],
    where every recorded call (a rejection too) counts in [total_calls]. *)
Definition failure_rate (W : nat) (evs : list event) : Q :=
  let k := (W `min` length evs)%nat in
  let recent := deque.window k evs in
  let F := length (omap (fun ev => match ev with
                                   | Failure _ _ _ => Some tt
                                   | _ => None end) recent) in
  (inject_Z (Z.of_nat F) / inject_Z (Z.of_nat k))%Q.

End Spec.

(* ===================================================================== *)
(** ** Concrete instances *)
(* ===================================================================== *)

Module Examples.

Import CircuitBreaker.

Definition boom : Exn :=
  {| exn_type := "ConnectionError"; exn_msg := "connection refused" |}.

Definition at_second (s : Z) : Stamp :=
  {| time_time := s; datetime_now := s |}.

Definition cached (_ : unit) : outcome string := Returned "cached"%string.

(** [CircuitBreaker("postgres_main", failure_threshold=3,
    recovery_timeout=60, expected_exception=ConnectionError,
    fallback_function=fb)], the remaining arguments at their defaults. *)
Definition postgres_main (fb : option (unit -> outcome string))
    : t unit string :=
  __init__
    {| name := "postgres_main";
       failure_threshold := 3;
       recovery_timeout := 60;
       expected_exception :=
         fun e => String.eqb (exn_type e) "ConnectionError";
       success_threshold := 2;
       failure_rate_threshold := 1 # 2;
       fallback_function := fb |}
    100.

Definition failure_at (s : Z) : op := Fail (at_second s) s s boom 1.

Definition query_raises (_ : unit) : outcome string := Raised boom.

Definition query_returns (_ : unit) : outcome string :=
  Returned "fresh"%string.

(** A call whose clock readings all fall in second [s]. *)
Definition within_second (s : Z) : call_clock :=
  {| at_check := s; at_start := s; at_end := s; at_record := at_second s;
     at_stamp := s; at_opened := s; at_recheck := s |}.

(** A breaker with a fallback that has failed at second 1000 and been
    queried at second 1060: it is HALF_OPEN. *)
Definition probing : t unit string :=
  run [failure_at 1000; Query 1060] (postgres_main (Some cached)).

(** The same breaker without a fallback, after ten successful calls. *)
Definition warmed : t unit string :=
  run (replicate 10 (Succeed (at_second 990) 1)) (postgres_main None).

Definition failing_calls (from : Z) (n : nat) : list (attempt unit string) :=
  (fun i => (within_second (from + Z.of_nat i), query_raises, tt))
    <$> seq 0 n.

(** *** A consumer of the platform topics *)

Import OptimizedKafkaConsumer.

Definition platform_config (size : Z) : ConsumerConfig :=
  {| consumer_group := "clean-platform-consumer";
     topics := ["platform-events"; "platform-metrics"]%string;
     batch_size := size;
     batch_timeout_ms := 5000;
     num_workers := 4;
     enable_dlq := true;
     dlq_topic := None |}.

Definition event_record (p off : Z) : ConsumerRecord :=
  {| r_topic := "platform-events"; r_partition := p; r_offset := off;
     r_key := None; r_value := "{}"; r_timestamp := 1700000000;
     r_headers := [] |}.

Definition event_message (p off : Z) : Message :=
  message_of (event_record p off).

(** A broker that accepts every commit and send and has nothing to deliver;
    the two callbacks end as given; the clock moves one second per event. *)
Definition quiet_broker (handler_raises callback_raises : option Exn)
    : collaborators :=
  {| message_handler := fun _ _ => handler_raises;
     error_handler := fun _ _ _ => callback_raises;
     consumer_commit := fun _ _ => Committed;
     consumer_poll := fun _ => Records [];
     dlq_producer_send := fun _ _ _ _ => None;
     clock := fun tr => 1700000000 + Z.of_nat (length tr) |}.

(** The same, with a source that delivers [parts] at every poll. *)
Definition delivering_broker
    (parts : list (TopicPartition * list ConsumerRecord)) : collaborators :=
  {| message_handler := fun _ _ => None;
     error_handler := fun _ _ _ => None;
     consumer_commit := fun _ _ => Committed;
     consumer_poll := fun _ => Records parts;
     dlq_producer_send := fun _ _ _ _ => None;
     clock := fun tr => 1700000000 + Z.of_nat (length tr) |}.

Definition two_partitions : list (TopicPartition * list ConsumerRecord) :=
  [(("platform-events"%string, 0),
    [event_record 0 10; event_record 0 11; event_record 0 12]);
   (("platform-events"%string, 1),
    [event_record 1 20; event_record 1 21; event_record 1 22])].



End Examples.


(* ===================================================================== *)
(** ** The statistics queries, with their locking *)
(* ===================================================================== *)

Module Stats.

Import threading.

(** The dictionary [CircuitBreakerMetrics.get_stats] returns. *)
Record metrics_stats := {
  s_total_calls : Z;
  s_successful_calls : Z;
  s_failed_calls : Z;
  s_rejected_calls : Z;
  s_failure_rate : Q;
  s_last_failure : option Z;
  s_last_success : option Z;
  s_circuit_opened_at : option Z
}.

(** [CircuitBreakerMetrics.get_failure_rate], called by a thread for which
    [held] tells whether it holds [self.lock]. *)
Definition get_failure_rate (held : bool) (m : CircuitBreakerMetrics.t)
    : blocking Q :=
  with_lock held (fun _ => Returns (CircuitBreakerMetrics.get_failure_rate m)).

(** [CircuitBreakerMetrics.get_stats]: the dictionary display is evaluated
    under [self.lock] and calls [self.get_failure_rate()]. *)
Definition get_stats (held : bool) (m : CircuitBreakerMetrics.t)
    : blocking metrics_stats :=
  with_lock held (fun held' =>
    bind (get_failure_rate held' m) (fun rate =>
      Returns {| s_total_calls := CircuitBreakerMetrics.total_calls m;
                 s_successful_calls := CircuitBreakerMetrics.successful_calls m;
                 s_failed_calls := CircuitBreakerMetrics.failed_calls m;
                 s_rejected_calls := CircuitBreakerMetrics.rejected_calls m;
                 s_failure_rate := rate;
                 s_last_failure := CircuitBreakerMetrics.last_failure_time m;
                 s_last_success := CircuitBreakerMetrics.last_success_time m;
                 s_circuit_opened_at :=
                   CircuitBreakerMetrics.circuit_opened_at m |})).

(** What [CircuitBreaker.get_stats] adds to the metrics dictionary. *)
Record breaker_stats := {
  s_metrics : metrics_stats;
  s_name : string;
  s_state : CircuitState;
  s_failure_threshold : Z;
  s_recovery_timeout : Z;
  s_failure_rate_threshold : Q
}.

(** [CircuitBreaker.get_stats], called by a thread that holds none of the
    locks: [self.metrics.get_stats()] first, then the update with
    [self.state.value] read at clock reading [now]. *)
Definition breaker_get_stats {Args Value} (now : Z)
    (b : CircuitBreaker.t Args Value)
    : blocking (breaker_stats * CircuitBreaker.t Args Value) :=
  bind (get_stats false (CircuitBreaker.metrics b)) (fun ms =>
    let (s, b') := CircuitBreaker.state now b in
    Returns ({| s_metrics := ms;
                s_name := CircuitBreaker.name (CircuitBreaker.cfg b');
                s_state := s;
                s_failure_threshold :=
                  CircuitBreaker.failure_threshold (CircuitBreaker.cfg b');
                s_recovery_timeout :=
                  CircuitBreaker.recovery_timeout (CircuitBreaker.cfg b');
                s_failure_rate_threshold :=
                  CircuitBreaker.failure_rate_threshold
                    (CircuitBreaker.cfg b') |}, b')).

End Stats.

(* ===================================================================== *)
(** ** class CircuitBreakerRegistry and class CircuitBreakerDecorator *)
(* ===================================================================== *)

(** Breakers are objects shared by reference: the registry and the
    decorator hold references, the objects live in a store. *)

Module CircuitBreakerRegistry.

Section WithCallable.

Context {Args Value : Type}.

Abbreviation breaker := (CircuitBreaker.t Args Value).

(** [register]: [self._breakers[breaker.name] = breaker]. *)
Definition register (r : nat) (h : gmap nat breaker)
    (reg : gmap string nat) : gmap string nat :=
  match h !! r with
  | Some b => <[CircuitBreaker.name (CircuitBreaker.cfg b) := r]> reg
  | None => reg
  end.

(** [get]: [self._breakers.get(name)]. *)
Definition get (name : string) (reg : gmap string nat) : option nat :=
  reg !! name.

(** The references [self._breakers.values()] yields. *)
Definition values (reg : gmap string nat) : list nat :=
  (map_to_list reg).*2.

(** [reset_all]: [breaker.reset()] for every value of the dictionary. *)
Definition reset_all (h : gmap nat breaker) (reg : gmap string nat)
    : gmap nat breaker :=
  foldl (fun h r => alter CircuitBreaker.reset r h) h (values reg).

(** [get_all_stats]: the list comprehension calls [get_stats] on the
    breakers in turn, at the clock readings [nows]. *)
Fixpoint stats_of (h : gmap nat breaker) (rs : list nat) (nows : list Z)
    : threading.blocking (list Stats.breaker_stats * gmap nat breaker) :=
  match rs with
  | [] => threading.Returns ([], h)
  | r :: rs' =>
      match h !! r with
      | None => stats_of h rs' nows
      | Some b =>
          threading.bind (Stats.breaker_get_stats (hd 0 nows) b) (fun sb =>
            threading.bind (stats_of (<[r := sb.2]> h) rs' (tl nows))
              (fun rest => threading.Returns (sb.1 :: rest.1, rest.2)))
      end
  end.

Definition get_all_stats (nows : list Z) (h : gmap nat breaker)
    (reg : gmap string nat)
    : threading.blocking (list Stats.breaker_stats * gmap nat breaker) :=
  stats_of h (values reg) nows.

End WithCallable.

End CircuitBreakerRegistry.

Module CircuitBreakerDecorator.

Section WithCallable.

Context {Args Value : Type}.

Abbreviation breaker := (CircuitBreaker.t Args Value).

Record t := {
  name : option string;
  failure_threshold : Z;
  recovery_timeout : Z;
  expected_exception : Exn -> bool;
  fallback_function : option (Args -> CircuitBreaker.outcome Value);
  _breakers : gmap string nat
}.

(** [self.name or f"{func.__module__}.{func.__name__}"], the second
    operand being [qualified]: [None] and the empty string are falsy. *)
Definition breaker_name (d : t) (qualified : string) : string :=
  match name d with
  | Some (String a s) => String a s
  | _ => qualified
  end.

(** The breaker [__call__] constructs: the arguments the decorator does not
    pass keep the defaults of [CircuitBreaker.__init__]. *)
Definition new_breaker (d : t) (n : string) : breaker :=
  CircuitBreaker.__init__
    {| CircuitBreaker.name := n;
       CircuitBreaker.failure_threshold := failure_threshold d;
       CircuitBreaker.recovery_timeout := recovery_timeout d;
       CircuitBreaker.expected_exception := expected_exception d;
       CircuitBreaker.success_threshold := 2;
       CircuitBreaker.failure_rate_threshold := 1 # 2;
       CircuitBreaker.fallback_function := fallback_function d |}
    100.

Definition with_breakers (bs : gmap string nat) (d : t) : t :=
  {| name := name d; failure_threshold := failure_threshold d;
     recovery_timeout := recovery_timeout d;
     expected_exception := expected_exception d;
     fallback_function := fallback_function d;
     _breakers := bs |}.

(** [__call__(func)]: the reference of the breaker the wrapper closes over,
    with the decorator and the store afterwards.  A new object gets a
    reference the store does not use yet. *)
Definition __call__ (qualified : string) (d : t) (h : gmap nat breaker)
    : nat * t * gmap nat breaker :=
  let n := breaker_name d qualified in
  match _breakers d !! n with
  | Some r => (r, d, h)
  | None =>
      let r := fresh (dom h) in
      (r, with_breakers (<[n := r]> (_breakers d)) d,
       <[r := new_breaker d n]> h)
  end.

(** [wrapper]: [breaker.call] with the function and its arguments, on the shared object. *)
Definition wrapper (r : nat) (func : Args -> CircuitBreaker.outcome Value)
    (ck : CircuitBreaker.call_clock) (args : Args) (h : gmap nat breaker)
    : option (CircuitBreaker.report Value) * gmap nat breaker :=
  match h !! r with
  | Some b =>
      let (rep, b') := CircuitBreaker.call ck func args b in
      (Some rep, <[r := b']> h)
  | None => (None, h)
  end.

End WithCallable.

Arguments t : clear implicits.

End CircuitBreakerDecorator.

(* ===================================================================== *)
(** ** class CleanPlatformConsumer *)
(* ===================================================================== *)

Module CleanPlatformConsumer.

Import OptimizedKafkaConsumer.

(** The two lists [process_messages] fills, in one pass over the batch. *)
Definition sort_message (acc : list string * list string) (m : Message)
    : list string * list string :=
  if String.eqb (topic m) "platform-events"
  then (acc.1 ++ [value m], acc.2)
  else if String.eqb (topic m) "platform-metrics"
       then (acc.1, acc.2 ++ [value m])
       else acc.

Definition sorted_values (batch : list Message)
    : list string * list string :=
  foldl sort_message ([], []) batch.

(** The processing steps [process_messages] takes. *)
Inductive processing :=
| ProcessEvents (events : list string)
| ProcessMetrics (metrics : list string).

Definition process_messages (batch : list Message) : list processing :=
  let (events, metrics) := sorted_values batch in
  (match events with [] => [] | _ => [ProcessEvents events] end)
  ++ (match metrics with [] => [] | _ => [ProcessMetrics metrics] end).

End CleanPlatformConsumer.

(* ===================================================================== *)
(** ** Further views of a consumer *)
(* ===================================================================== *)

Module ConsumerViews.

Import OptimizedKafkaConsumer.

(** Every message the consumer has taken in, in order: those already handed
    to the handler, then those still in the open buffer. *)
Definition taken_in (c : t) : list Message :=
  concat (handler_batches (trace c)) ++ batch_queue c.

(** How many handler invocations returned normally. *)
Definition handled_ok (tr : list event) : nat :=
  length (omap (fun ev => match ev with
                          | HandlerCalled _ None => Some tt
                          | _ => None end) tr).

(** The records a poll delivers, partition by partition. *)
Definition polled_records (p : poll_outcome) : list ConsumerRecord :=
  match p with
  | Records parts => concat (parts.*2)
  | _ => []
  end.

(** The records a sequence of entry points adds directly. *)
Definition added_records (ops : list op) : list ConsumerRecord :=
  omap (fun o => match o with AddToBatch r => Some r | _ => None end) ops.

Definition is_consume (o : op) : bool :=
  match o with ConsumeOnce => true | _ => false end.

(** Events that are neither a handler invocation, a commit nor a DLQ
    send. *)
Definition housekeeping (ev : event) : Prop :=
  match ev with
  | Polled | LoggedError _ | ThreadJoined _ | ConsumerClosed
  | ProducerClosed | ThreadStarted _ | ErrorHandlerCalled _ _ _ => True
  | _ => False
  end.

(** A DLQ send of a first failure: the message had no [retry_count] and the
    payload carries 1. *)
Definition first_failure_send
    (s : string * DlqMessage * option string) : Prop :=
  dlq_retry_count s.1.2 = 1 /\ retry_count (original_message s.1.2) = None.

(** As many commits as handler invocations that returned. *)
Definition balanced (c : t) : Prop :=
  length (commits (trace c)) = handled_ok (trace c).

(** Messages without a [retry_count] in the buffer, first-failure sends
    only in the trace. *)
Definition never_retried (c : t) : Prop :=
  Forall (fun m => retry_count m = None) (batch_queue c)
  /\ Forall first_failure_send (dlq_sends (trace c)).

(** Nothing waits in the buffer and every batch so far was one message. *)
Definition one_by_one (c : t) : Prop :=
  batch_size (config c) <= 1
  /\ batch_queue c = []
  /\ Forall (fun b => length b = 1%nat) (handler_batches (trace c)).

End ConsumerViews.

(* ===================================================================== *)
(** ** Further views of a sequence of recorder calls *)
(* ===================================================================== *)

Module MetricsViews.

Import CircuitBreakerMetrics.

Definition count_success (evs : list event) : nat :=
  length (omap (fun ev => match ev with
                          | Success _ _ => Some tt | _ => None end) evs).

Definition count_failure (evs : list event) : nat :=
  length (omap (fun ev => match ev with
                          | Failure _ _ _ => Some tt | _ => None end) evs).

Definition count_rejection (evs : list event) : nat :=
  length (omap (fun ev => match ev with
                          | Rejection => Some tt | _ => None end) evs).

(** The [datetime.now()] readings of the successes, and of the failures. *)
Definition success_times (evs : list event) : list Z :=
  omap (fun ev => match ev with
                  | Success st _ => Some (datetime_now st) | _ => None end) evs.

Definition failure_times (evs : list event) : list Z :=
  omap (fun ev => match ev with
                  | Failure st _ _ => Some (datetime_now st)
                  | _ => None end) evs.

(** What the recorder keeps whatever is recorded: the window fits its bound
    and the four counters are consistent. *)
Definition consistent (m : t) : Prop :=
  (length (calls m) <= window_size m)%nat
  /\ 0 <= successful_calls m /\ 0 <= failed_calls m /\ 0 <= rejected_calls m
  /\ total_calls m = successful_calls m + failed_calls m + rejected_calls m
  /\ Z.of_nat (length (calls m)) <= successful_calls m + failed_calls m.

End MetricsViews.

(* ===================================================================== *)
(** ** Further views of a breaker *)
(* ===================================================================== *)

Module BreakerViews.

Import CircuitBreaker.

Section WithCallable.

Context {Args Value : Type}.

Implicit Types (b : t Args Value).

(** The counters each state allows. *)
Definition counters_fit b : Prop :=
  match _state b with
  | OPEN => _failure_count b = 0 /\ _success_count b = 0
  | CLOSED =>
      _success_count b = 0
      /\ (_failure_count b = 0
          \/ 0 < _failure_count b < failure_threshold (cfg b))
  | HALF_OPEN =>
      _failure_count b = 0
      /\ (_success_count b = 0
          \/ 0 < _success_count b < success_threshold (cfg b))
  end.

(** What listeners and the metrics are told about the state. *)
Definition told_state b : Prop :=
  ((state_changes b = [] /\ _state b = CLOSED)
   \/ last (state_changes b) = Some (_state b))
  /\ (CircuitBreakerMetrics.circuit_opened_at (metrics b) = None
      <-> _state b = CLOSED).

End WithCallable.

End BreakerViews.

(* ===================================================================== *)
(** ** Further concrete instances *)
(* ===================================================================== *)

Module MoreExamples.

Import Examples.

(** [@circuit_breaker(name="database_query", failure_threshold=5,
    recovery_timeout=60, fallback_function=...)] before it is applied. *)
Definition database_query : CircuitBreakerDecorator.t unit string :=
  {| CircuitBreakerDecorator.name := Some "database_query"%string;
     CircuitBreakerDecorator.failure_threshold := 5;
     CircuitBreakerDecorator.recovery_timeout := 60;
     CircuitBreakerDecorator.expected_exception := fun _ => true;
     CircuitBreakerDecorator.fallback_function := Some cached;
     CircuitBreakerDecorator._breakers := ∅ |}.

Definition no_objects : gmap nat (CircuitBreaker.t unit string) := ∅.

End MoreExamples.
(* ===================================================================== *)
(** * Properties of the rolling metrics window *)
(* ===================================================================== *)

Module MetricsFacts.

Import CircuitBreakerMetrics.

Lemma window_length {A} (W : nat) (l : list A) :
  length (deque.window W l) = (W `min` length l)%nat.
Proof. unfold deque.window. rewrite length_drop. lia. Qed.

Lemma window_short {A} (W : nat) (l : list A) :
  (length l <= W)%nat -> deque.window W l = l.
Proof.
  intros H. unfold deque.window.
  replace (length l - W)%nat with 0%nat by lia. reflexivity.
Qed.

(** Appending to a bounded deque that holds the last [W] elements of a
    history leaves it holding the last [W] elements of the longer history. *)
Lemma append_window {A} (W : nat) (x : A) (l : list A) :
  deque.append W x (deque.window W l) = deque.window W (l ++ [x]).
Proof.
  unfold deque.append.
  rewrite length_app, window_length. simpl.
  destruct (Nat.ltb_spec W (W `min` length l + 1)) as [Hlt | Hge].
  - (* the deque was full: its oldest entry goes *)
    unfold deque.window. rewrite length_app. simpl.
    replace (length l + 1 - W)%nat with (S (length l - W)) by lia.
    rewrite <- drop_app_le by lia.
    generalize (l ++ [x]). generalize (length l - W)%nat.
    intros n l0. revert l0.
    induction n as [| n IH]; intros [| y l0]; simpl; try reflexivity.
    + apply IH.
  - rewrite (window_short W l) by lia.
    rewrite window_short; [reflexivity |].
    rewrite length_app. simpl. lia.
Qed.

Lemma play_snoc (evs : list event) (ev : event) (m : t) :
  play (evs ++ [ev]) m = record ev (play evs m).
Proof. unfold play. rewrite foldl_app. reflexivity. Qed.

Lemma entries_snoc (evs : list event) (ev : event) :
  entries (evs ++ [ev]) = entries evs ++ entries [ev].
Proof. unfold entries. rewrite flat_map_app. reflexivity. Qed.

Lemma play_window_size (evs : list event) (m : t) :
  window_size (play evs m) = window_size m.
Proof.
  induction evs as [| ev evs IH] using rev_ind; [reflexivity |].
  rewrite play_snoc. destruct ev; simpl; exact IH.
Qed.

(** The deque always holds the last [W] outcome entries ever recorded. *)
Lemma play_calls (W : nat) (evs : list event) :
  calls (play evs (__init__ W)) = deque.window W (entries evs).
Proof.
  induction evs as [| ev evs IH] using rev_ind; [reflexivity |].
  rewrite play_snoc, entries_snoc.
  pose proof (play_window_size evs (__init__ W)) as HW. simpl in HW.
  destruct ev as [st d | st e d |]; simpl.
  - rewrite HW, IH. apply append_window.
  - rewrite HW, IH. apply append_window.
  - rewrite app_nil_r. exact IH.
Qed.

Lemma play_total_calls (W : nat) (evs : list event) :
  total_calls (play evs (__init__ W)) = Z.of_nat (length evs).
Proof.
  induction evs as [| ev evs IH] using rev_ind; [reflexivity |].
  rewrite play_snoc, length_app. simpl.
  destruct ev; simpl; rewrite IH; lia.
Qed.

Lemma play_counters (W : nat) (evs : list event) :
  let m := play evs (__init__ W) in
  successful_calls m + failed_calls m = Z.of_nat (length (entries evs))
  /\ total_calls m = Z.of_nat (length (entries evs)) + rejected_calls m.
Proof.
  induction evs as [| ev evs IH] using rev_ind; [split; reflexivity |].
  cbv zeta in *. rewrite play_snoc, entries_snoc, length_app.
  destruct IH as [IH1 IH2].
  destruct ev; simpl; split; lia.
Qed.

Lemma failure_rate_of_calls (m : t) :
  calls m <> [] ->
  (get_failure_rate m ==
   inject_Z (Z.of_nat (failures (calls m)))
   / inject_Z (Z.of_nat (length (calls m))))%Q.
Proof.
  intros H. unfold get_failure_rate.
  destruct (calls m); [congruence | reflexivity].
Qed.

Lemma window_min {A} (W : nat) (l : list A) :
  deque.window (W `min` length l) l = deque.window W l.
Proof. unfold deque.window. f_equal. lia. Qed.

(** C4 (as amended).  Only recorded outcomes (successes and failures) enter
    the window; a rejection raises [total_calls] and nothing else.  After any
    sequence of recorder calls on a window of size [W], with [n] outcomes
    recorded ([n = total_calls - rejected_calls]): the deque holds exactly the
    last [min W n] outcomes, so its length never exceeds [W];
    [get_failure_rate] is the number [F] of failures among them over
    [min W n], and is [0] when there is none; and recording one more outcome
    on a full window drops the oldest entry. *)
Theorem failure_rate_over_window (W : nat) (evs : list event) :
  let m := play evs (__init__ W) in
  let n := length (entries evs) in
  let k := (W `min` n)%nat in
  let F := failures (deque.window k (entries evs)) in
  Z.of_nat n = total_calls m - rejected_calls m
  /\ calls m = deque.window k (entries evs)
  /\ length (calls m) = k
  /\ (length (calls m) <= W)%nat
  /\ (k <> 0%nat ->
      (get_failure_rate m == inject_Z (Z.of_nat F) / inject_Z (Z.of_nat k))%Q)
  /\ (k = 0%nat -> (get_failure_rate m == 0)%Q)
  /\ (forall ev x oldest rest,
        entries [ev] = [x] -> calls m = oldest :: rest ->
        length (calls m) = W ->
        calls (record ev m) = rest ++ [x]).
Proof.
  intros m n k F.
  assert (Hcalls : calls m = deque.window k (entries evs)).
  { subst m k n. rewrite play_calls. symmetry. apply window_min. }
  assert (Hlen : length (calls m) = k).
  { rewrite Hcalls, window_length. subst k n. lia. }
  split; [| split; [| split; [| split; [| split; [| split]]]]].
  - destruct (play_counters W evs) as [_ H]. fold m in H. subst n. lia.
  - exact Hcalls.
  - exact Hlen.
  - rewrite Hlen. subst k. lia.
  - intros Hk. rewrite failure_rate_of_calls.
    + subst F. rewrite Hlen, <- Hcalls. reflexivity.
    + intros Hnil. rewrite Hnil in Hlen. simpl in Hlen. congruence.
  - intros Hk. unfold get_failure_rate.
    destruct (calls m) eqn:E; [reflexivity |].
    rewrite Hk in Hlen. discriminate.
  - intros ev x oldest rest Hev Hm HW.
    assert (Hws : window_size m = W).
    { exact (play_window_size evs (__init__ W)). }
    assert (Happ : calls (record ev m)
                   = deque.append W x (calls m)).
    { destruct ev as [st d | st e d |]; simpl in Hev |- *;
        [injection Hev as <-; rewrite Hws; reflexivity ..| discriminate]. }
    rewrite Happ. unfold deque.append.
    rewrite length_app, HW. simpl.
    destruct (Nat.ltb_spec W (W + 1)) as [_ | Hge]; [| lia].
    rewrite Hm. reflexivity.
Qed.

(** C4, counterexample to the rate as the specification words it: with
    [W = 2], one failure followed by one rejected call gives
    [total_calls = 2]; one of the last two recorded calls failed, so the
    specification's rate is [1/2], while the window holds the failure alone
    and [get_failure_rate] is [1]. *)
Lemma failure_rate_counterexample :
  let st := {| time_time := 1700000000; datetime_now := 1700000000 |} in
  let evs := [Failure st {| exn_type := "Exception"; exn_msg := "down" |} 3;
              Rejection] in
  let m := play evs (__init__ 2) in
  total_calls m = 2
  /\ (Spec.failure_rate 2 evs == 1 # 2)%Q
  /\ (get_failure_rate m == 1)%Q
  /\ ~ (get_failure_rate m == Spec.failure_rate 2 evs)%Q.
Proof.
  cbv zeta. split; [reflexivity |]. split; [reflexivity |].
  split; [reflexivity |]. intros H. vm_compute in H. discriminate.
Qed.

End MetricsFacts.

(* ===================================================================== *)
(** * Properties of the circuit breaker *)
(* ===================================================================== *)

Module BreakerFacts.

Import CircuitBreaker.

Section WithCallable.

Context {Args Value : Type}.

Local Abbreviation breaker := (t Args Value).
Local Abbreviation bop := (op).

Implicit Types (b : breaker) (o : bop) (ops : list bop).

Local Ltac break_state b :=
  let E := fresh "E" in destruct (_state b) eqn:E; simpl in *; try congruence.

Lemma run_snoc ops o b : run (ops ++ [o]) b = step o (run ops b).
Proof. unfold run. rewrite foldl_app. reflexivity. Qed.

Lemma run_app ops1 ops2 b : run (ops1 ++ ops2) b = run ops2 (run ops1 b).
Proof. unfold run. apply foldl_app. Qed.

(** *** What each guarded body does to the state field *)

Lemma state_refresh_cases now b :
  (state_refresh now b = b)
  \/ (_state b = OPEN /\ _should_attempt_reset now b = true
      /\ state_refresh now b = _transition_to_half_open b).
Proof.
  unfold state_refresh. destruct (_state b); auto.
  destruct (_should_attempt_reset now b); auto.
Qed.

Lemma state_refresh_cfg now b : cfg (state_refresh now b) = cfg b.
Proof. destruct (state_refresh_cases now b) as [-> | (_ & _ & ->)]; reflexivity. Qed.

Lemma state_refresh_not_open now b :
  _state b <> OPEN -> state_refresh now b = b.
Proof. unfold state_refresh. destruct (_state b); congruence. Qed.


Lemma on_failure_state st now opened e d b :
  let b' := _on_failure st now opened e d b in
  _last_failure_time b' = Some now
  /\ cfg b' = cfg b
  /\ ((_state b <> OPEN /\ _state b' = OPEN
       /\ _failure_count b' = 0 /\ _success_count b' = 0
       /\ state_changes b' = state_changes b ++ [OPEN])
      \/ (_state b = OPEN /\ _state b' = OPEN
          /\ _failure_count b' = _failure_count b
          /\ _success_count b' = _success_count b
          /\ state_changes b' = state_changes b)
      \/ (_state b = CLOSED /\ _state b' = CLOSED
          /\ _failure_count b' = _failure_count b + 1
          /\ _failure_count b' < failure_threshold (cfg b)
          /\ _success_count b' = _success_count b
          /\ state_changes b' = state_changes b)).
Proof.
  unfold _on_failure. simpl.
  destruct (_state b) eqn:E; simpl;
    [destruct (Z.leb_spec (failure_threshold (cfg b)) (_failure_count b + 1));
       [| destruct (Qle_bool _ _)] | |];
    simpl; rewrite ?E; (split; [reflexivity | split; [reflexivity |]]);
    first [ left; repeat split; congruence
          | right; left; repeat split; congruence
          | right; right; repeat split; auto; lia ].
Qed.

Lemma on_success_state st d b :
  let b' := _on_success st d b in
  cfg b' = cfg b
  /\ _last_failure_time b' = _last_failure_time b
  /\ match _state b with
     | HALF_OPEN =>
         if success_threshold (cfg b) <=? _success_count b + 1
         then _state b' = CLOSED /\ _failure_count b' = 0
              /\ _success_count b' = 0
         else _state b' = HALF_OPEN
              /\ _success_count b' = _success_count b + 1
              /\ _failure_count b' = _failure_count b
     | s => _state b' = s /\ _failure_count b' = 0
            /\ _success_count b' = _success_count b
     end.
Proof.
  unfold _on_success. simpl.
  destruct (_state b) eqn:E; simpl; auto.
  destruct (Z.leb_spec (success_threshold (cfg b)) (_success_count b + 1));
    simpl; auto.
Qed.



(** *** Invariants of reachable breakers *)

Lemma init_well_formed (c : config Args Value) (w : nat) :
  well_formed (__init__ c w).
Proof. repeat split; simpl; try lia; discriminate. Qed.

Lemma step_well_formed o b : well_formed b -> well_formed (step o b).
Proof.
  intros (Hf & Hs & Ho). destruct o as [now | st d | st now opened e d | |].
  - simpl. destruct (state_refresh_cases now b) as [-> | (_ & _ & ->)].
    + repeat split; assumption.
    + repeat split; simpl; try lia; discriminate.
  - simpl. pose proof (on_success_state st d b) as (_ & Hl & H).
    cbv zeta in *. destruct (_state b) eqn:E.
    + destruct H as (H1 & H2 & H3). repeat split; try lia. congruence.
    + destruct H as (H1 & H2 & H3). repeat split; try lia.
      intros _. rewrite Hl. auto.
    + destruct (success_threshold (cfg b) <=? _success_count b + 1);
        destruct H as (H1 & H2 & H3); repeat split; try lia; congruence.
  - simpl. pose proof (on_failure_state st now opened e d b) as (Hl & _ & H).
    cbv zeta in *.
    destruct H as [(H0 & H1 & H2 & H3 & _)
                  | [(H0 & H1 & H2 & H3 & _) | (H0 & H1 & H2 & H3 & H4 & _)]];
      repeat split; try lia; eauto.
  - repeat split; assumption.
  - repeat split; simpl; try lia; discriminate.
Qed.

Lemma reachable_well_formed b : reachable b -> well_formed b.
Proof.
  intros (c & w & ops & ->).
  induction ops as [| o ops IH] using rev_ind.
  - apply init_well_formed.
  - rewrite run_snoc. apply step_well_formed, IH.
Qed.

Lemma reachable_step o b : reachable b -> reachable (step o b).
Proof.
  intros (c & w & ops & ->). exists c, w, (ops ++ [o]).
  symmetry. apply run_snoc.
Qed.

Lemma reachable_run ops b : reachable b -> reachable (run ops b).
Proof.
  intros H. induction ops as [| o ops IH] using rev_ind; [exact H |].
  rewrite run_snoc. apply reachable_step, IH.
Qed.


(** *** Consecutive failures *)





(** *** [call] is a sequence of guarded bodies *)

(** The bodies one [call] runs, in order. *)
Lemma call_is_run b (ck : call_clock) (func : Args -> outcome Value)
    (args : Args) :
  (call ck func args b).2
  = run (Query (at_check ck)
           :: match (state (at_check ck) b).1, func args with
              | OPEN, _ => [Reject]
              | _, Returned _ =>
                  [Succeed (at_record ck) (at_end ck - at_start ck)]
              | _, Raised e =>
                  if expected_exception (cfg b) e
                  then [Fail (at_record ck) (at_stamp ck) (at_opened ck) e
                             (at_end ck - at_start ck);
                        Query (at_recheck ck)]
                  else []
              end) b.
Proof.
  unfold call, state. simpl. rewrite <- (state_refresh_cfg (at_check ck) b).
  set (b1 := state_refresh (at_check ck) b).
  destruct (_state b1) eqn:E1.
  - destruct (func args) as [v | e]; [reflexivity |].
    destruct (expected_exception (cfg b1) e); [| reflexivity]. simpl.
    match goal with
    | |- context [match _state ?x with _ => _ end] =>
        destruct (_state x); try reflexivity;
        destruct (fallback_function _); reflexivity
    end.
  - simpl. destruct (fallback_function (cfg b1)); reflexivity.
  - destruct (func args) as [v | e]; [reflexivity |].
    destruct (expected_exception (cfg b1) e); [| reflexivity]. simpl.
    match goal with
    | |- context [match _state ?x with _ => _ end] =>
        destruct (_state x); try reflexivity;
        destruct (fallback_function _); reflexivity
    end.
Qed.

Lemma reachable_call b (ck : call_clock) (func : Args -> outcome Value)
    (args : Args) :
  reachable b -> reachable (call ck func args b).2.
Proof. intros H. rewrite call_is_run. apply reachable_run, H. Qed.

(** *** Recovery probe *)

Lemma should_attempt_reset_true now b lf :
  _last_failure_time b = Some lf -> lf <> 0 ->
  recovery_timeout (cfg b) <= now - lf ->
  _should_attempt_reset now b = true.
Proof.
  intros Hl Hz Ht. unfold _should_attempt_reset. rewrite Hl.
  destruct (Z.eqb_spec lf 0); [contradiction |]. lia.
Qed.

Lemma should_attempt_reset_false now b lf :
  _last_failure_time b = Some lf ->
  now - lf < recovery_timeout (cfg b) ->
  _should_attempt_reset now b = false.
Proof.
  intros Hl Ht. unfold _should_attempt_reset. rewrite Hl.
  destruct (lf =? 0); [reflexivity | lia].
Qed.

(** Only the [state] property ever produces HALF_OPEN. *)
Lemma half_open_only_by_query o b :
  is_query o = false -> _state (step o b) = HALF_OPEN -> _state b = HALF_OPEN.
Proof.
  destruct o as [now | st d | st now opened e d | |]; simpl;
    intros Hq H; try discriminate.
  - pose proof (on_success_state st d b) as (_ & _ & Hs). cbv zeta in Hs.
    destruct (_state b); try reflexivity;
      try (destruct Hs as (Hs & _); congruence).
  - pose proof (on_failure_state st now opened e d b) as (_ & _ & Hs).
    cbv zeta in Hs.
    destruct Hs as [(_ & Hs & _) | [(_ & Hs & _) | (_ & Hs & _)]]; congruence.
  - exact H.
Qed.

Lemma half_open_failure_reopens st now opened e d b :
  _state b = HALF_OPEN -> _state (_on_failure st now opened e d b) = OPEN.
Proof. intros H. unfold _on_failure. simpl. rewrite H. reflexivity. Qed.

(** Whatever is not turned away reaches the wrapped callable. *)
Lemma call_invokes_unless_open b (ck : call_clock)
    (func : Args -> outcome Value) (args : Args) :
  (state (at_check ck) b).1 <> OPEN ->
  invoked_func (call ck func args b).1 = true.
Proof.
  unfold call, state. simpl. intros Hs.
  destruct (_state (state_refresh (at_check ck) b)); try congruence;
    (destruct (func args) as [v | ex]; [reflexivity |]);
    (destruct (expected_exception _ ex); [| reflexivity]);
    match goal with
    | |- context [match _state ?x with _ => _ end] =>
        destruct (_state x); try reflexivity;
        destruct (fallback_function _); reflexivity
    end.
Qed.

(** What [call] does when the callable raises an expected exception while
    the breaker is HALF_OPEN: the failure handler has already reopened the
    breaker when the handler of [call] looks at the state, so the fallback is
    consulted only if the recovery time has passed again in between. *)
Lemma call_half_open_failure b (ck : call_clock)
    (func : Args -> outcome Value) (args : Args) e :
  _state b = HALF_OPEN ->
  func args = Raised e ->
  expected_exception (cfg b) e = true ->
  at_recheck ck - at_stamp ck < recovery_timeout (cfg b) ->
  (call ck func args b).1
  = {| result := Error e; invoked_func := true; invoked_fallback := false |}
  /\ _state (call ck func args b).2 = OPEN.
Proof.
  intros Hh Hf He Ht. unfold call, state.
  rewrite (state_refresh_not_open _ b) by congruence.
  rewrite Hh, Hf, He.
  set (b2 := _on_failure _ _ _ _ _ b).
  pose proof (on_failure_state (at_record ck) (at_stamp ck) (at_opened ck) e
                (at_end ck - at_start ck) b) as (Hl & Hcfg & _).
  cbv zeta in Hl, Hcfg. fold b2 in Hl, Hcfg.
  assert (Ho : _state b2 = OPEN) by (apply half_open_failure_reopens, Hh).
  assert (Hr : state_refresh (at_recheck ck) b2 = b2).
  { unfold state_refresh. rewrite Ho.
    rewrite (should_attempt_reset_false _ b2 (at_stamp ck) Hl);
      [reflexivity | rewrite Hcfg; exact Ht]. }
  rewrite Hr, Ho. simpl. auto.
Qed.

(** The state query is idempotent at one clock reading, so a [call] sees
    the breaker only through the query it starts with. *)
Lemma entry_query_idempotent now b :
  state_refresh now (state_refresh now b) = state_refresh now b.
Proof.
  destruct (state_refresh_cases now b) as [H | (_ & _ & H)].
  - rewrite !H. reflexivity.
  - rewrite H. reflexivity.
Qed.

Lemma call_after_entry_query b (ck : call_clock)
    (func : Args -> outcome Value) (args : Args) :
  call ck func args (state_refresh (at_check ck) b) = call ck func args b.
Proof. unfold call, state. rewrite entry_query_idempotent. reflexivity. Qed.

(** Notifications are only ever added. *)
Lemma step_notifies_more o b :
  exists rest, state_changes (step o b) = state_changes b ++ rest.
Proof.
  destruct o as [now | st d | st now opened e d | |]; simpl.
  - destruct (state_refresh_cases now b) as [-> | (_ & _ & ->)].
    + exists []. symmetry. apply app_nil_r.
    + exists [HALF_OPEN]. reflexivity.
  - unfold _on_success. simpl. destruct (_state b); simpl;
      try (exists []; symmetry; apply app_nil_r).
    destruct (_ <=? _); simpl;
      [exists [CLOSED]; reflexivity | exists []; symmetry; apply app_nil_r].
  - pose proof (on_failure_state st now opened e d b) as (_ & _ & H).
    cbv zeta in H.
    destruct H as [(_ & _ & _ & _ & H)
                  | [(_ & _ & _ & _ & H) | (_ & _ & _ & _ & _ & H)]];
      rewrite H;
      [exists [OPEN]; reflexivity | exists []; symmetry; apply app_nil_r ..].
  - exists []. symmetry. apply app_nil_r.
  - exists [CLOSED]. reflexivity.
Qed.

Lemma run_notifies_more ops b :
  exists rest, state_changes (run ops b) = state_changes b ++ rest.
Proof.
  induction ops as [| o ops [rest IH]] using rev_ind.
  - exists []. symmetry. apply app_nil_r.
  - rewrite run_snoc. destruct (step_notifies_more o (run ops b)) as [r Hr].
    exists (rest ++ r). rewrite Hr, IH. symmetry. apply app_assoc.
Qed.

(** C2.  For a breaker that is OPEN with a failure time [lf] (a clock
    reading, hence not the zero the truth test of [_should_attempt_reset]
    takes for "unset"): the state query at a time [now] with
    [now - lf >= recovery_timeout] answers HALF_OPEN, leaves the breaker
    HALF_OPEN with both counters at 0 and notifies that one transition; a
    query made earlier changes nothing; any later query finds HALF_OPEN and
    changes nothing (the transition happens once); a [call] attempted at
    [now] is let through to the wrapped callable, and it performs the same
    transition: it runs exactly as on the HALF_OPEN breaker with both
    counters reset, the breaker it leaves has that transition notified, a
    callable that returns is counted as a success of that breaker, an
    exception that is not the expected one leaves that breaker as it is, and
    an expected one reopens it (the recovery time not having passed again
    when [call] looks at the state afterwards); no
    other body of the breaker ever produces HALF_OPEN (nothing but a query
    performs the transition); and one failure while HALF_OPEN puts the
    breaker back to OPEN. *)
Theorem half_open_on_first_query_after_timeout b now lf :
  _state b = OPEN ->
  _last_failure_time b = Some lf ->
  lf <> 0 ->
  recovery_timeout (cfg b) <= now - lf ->
  let b1 := (state now b).2 in
  (state now b).1 = HALF_OPEN
  /\ _state b1 = HALF_OPEN
  /\ _success_count b1 = 0 /\ _failure_count b1 = 0
  /\ state_changes b1 = state_changes b ++ [HALF_OPEN]
  /\ (forall earlier, earlier - lf < recovery_timeout (cfg b) ->
        state earlier b = (OPEN, b))
  /\ (forall later, state later b1 = (HALF_OPEN, b1))
  /\ (forall (ck : call_clock) (func : Args -> outcome Value) args,
        at_check ck = now ->
        invoked_func (call ck func args b).1 = true)
  /\ (forall (ck : call_clock) (func : Args -> outcome Value) args,
        at_check ck = now ->
        call ck func args b = call ck func args b1
        /\ (exists rest,
              state_changes (call ck func args b).2
              = state_changes b ++ HALF_OPEN :: rest)
        /\ (forall v, func args = Returned v ->
              (call ck func args b).2
              = _on_success (at_record ck) (at_end ck - at_start ck) b1)
        /\ (forall e, func args = Raised e ->
              expected_exception (cfg b) e = false ->
              (call ck func args b).2 = b1)
        /\ (forall e, func args = Raised e ->
              expected_exception (cfg b) e = true ->
              at_recheck ck - at_stamp ck < recovery_timeout (cfg b) ->
              _state (call ck func args b).2 = OPEN))
  /\ (forall o (b0 : breaker),
        is_query o = false ->
        _state (step o b0) = HALF_OPEN -> _state b0 = HALF_OPEN)
  /\ (forall (bh : breaker) st t opened e d,
        _state bh = HALF_OPEN ->
        _state (_on_failure st t opened e d bh) = OPEN).
Proof.
  intros Ho Hl Hz Ht b1.
  assert (Hr : state_refresh now b = _transition_to_half_open b).
  { unfold state_refresh.
    rewrite Ho, (should_attempt_reset_true now b lf Hl Hz Ht). reflexivity. }
  assert (Hs : state now b = (HALF_OPEN, _transition_to_half_open b)).
  { unfold state. rewrite Hr. reflexivity. }
  subst b1. rewrite Hs. simpl.
  split; [reflexivity |]. split; [reflexivity |]. split; [reflexivity |].
  split; [reflexivity |]. split; [reflexivity |].
  split; [| split; [| split; [| split; [| split]]]].
  - intros earlier He. unfold state, state_refresh.
    rewrite Ho, (should_attempt_reset_false earlier b lf Hl He), Ho.
    reflexivity.
  - intros later. reflexivity.
  - intros ck func args Hck. apply call_invokes_unless_open.
    rewrite Hck, Hs. discriminate.
  - intros ck func args Hck.
    assert (Heq : call ck func args b
                  = call ck func args (_transition_to_half_open b)).
    { rewrite <- (call_after_entry_query b), Hck, Hr. reflexivity. }
    assert (Hq : state_refresh (at_check ck) (_transition_to_half_open b)
                 = _transition_to_half_open b).
    { apply state_refresh_not_open. discriminate. }
    split; [exact Heq |]. rewrite Heq. split; [| split; [| split]].
    + rewrite call_is_run.
      change (run (Query (at_check ck) :: ?l) ?x)
        with (run l (state_refresh (at_check ck) x)).
      rewrite Hq.
      match goal with
      | |- context [run ?l (_transition_to_half_open b)] =>
          destruct (run_notifies_more l (_transition_to_half_open b))
            as [rest Hrest]
      end.
      exists rest. rewrite Hrest. simpl. rewrite <- app_assoc. reflexivity.
    + intros v Hv. unfold call, state. rewrite Hq, Hv. reflexivity.
    + intros e He Hne. unfold call, state. rewrite Hq, He. simpl.
      rewrite Hne. reflexivity.
    + intros e He Hex Hre.
      apply (call_half_open_failure (_transition_to_half_open b) ck func args
               e eq_refl He Hex Hre).
  - intros o b0. apply half_open_only_by_query.
  - intros bh st t opened e d. apply half_open_failure_reopens.
Qed.

(** *** Closing again *)

Lemma call_success b (ck : call_clock) (func : Args -> outcome Value)
    (args : Args) v :
  func args = Returned v ->
  _state b <> OPEN ->
  (call ck func args b).2
  = _on_success (at_record ck) (at_end ck - at_start ck) b.
Proof.
  intros Hf Hs. unfold call, state.
  rewrite (state_refresh_not_open _ b Hs), Hf.
  destruct (_state b); try congruence; reflexivity.
Qed.

Lemma call_all_cons (a : attempt Args Value) atts b :
  call_all (a :: atts) b
  = call_all atts (let '(ck, f, x) := a in (call ck f x b).2).
Proof. reflexivity. Qed.

Lemma closed_successes (atts : list (attempt Args Value)) b :
  Forall succeeds atts ->
  _state b = CLOSED -> _failure_count b = 0 ->
  _state (call_all atts b) = CLOSED /\ _failure_count (call_all atts b) = 0.
Proof.
  intros Hall. revert b.
  induction Hall as [| [[ck f] x] atts [v Hv] _ IH]; intros b Hc Hf.
  - auto.
  - rewrite call_all_cons, (call_success b ck f x v Hv) by congruence.
    pose proof (on_success_state (at_record ck) (at_end ck - at_start ck) b)
      as (_ & _ & H).
    cbv zeta in H. rewrite Hc in H. destruct H as (H1 & H2 & _).
    apply IH; assumption.
Qed.

Lemma half_open_successes (atts : list (attempt Args Value)) b :
  Forall succeeds atts ->
  _state b = HALF_OPEN ->
  atts <> [] ->
  success_threshold (cfg b) <= _success_count b + Z.of_nat (length atts) ->
  _state (call_all atts b) = CLOSED /\ _failure_count (call_all atts b) = 0.
Proof.
  intros Hall. revert b.
  induction Hall as [| [[ck f] x] atts [v Hv] Hrest IH]; intros b Hh Hne Hn.
  - congruence.
  - rewrite call_all_cons, (call_success b ck f x v Hv) by congruence.
    pose proof (on_success_state (at_record ck) (at_end ck - at_start ck) b)
      as (Hcfg & _ & H).
    cbv zeta in H. rewrite Hh in H.
    destruct (Z.leb_spec (success_threshold (cfg b)) (_success_count b + 1))
      as [Hle | Hgt].
    + destruct H as (H1 & H2 & _). apply closed_successes; assumption.
    + destruct H as (H1 & H2 & _). simpl length in Hn.
      apply IH; [exact H1 | | rewrite Hcfg, H2; lia].
      intros ->. simpl in Hn. lia.
Qed.

(** C3.  For a breaker that is HALF_OPEN, after [success_threshold]
    successful calls through [call] in a row (or more), with no failure in
    between, the breaker is CLOSED and its failure counter is 0. *)
Theorem closes_after_success_threshold b (atts : list (attempt Args Value)) :
  reachable b ->
  _state b = HALF_OPEN ->
  Forall succeeds atts ->
  atts <> [] ->
  success_threshold (cfg b) <= Z.of_nat (length atts) ->
  _state (call_all atts b) = CLOSED /\ _failure_count (call_all atts b) = 0.
Proof.
  intros Hr Hh Hall Hne Hn.
  apply reachable_well_formed in Hr as (_ & Hs & _).
  apply half_open_successes; try assumption. lia.
Qed.

(** *** Failure while half-open *)

(** *** Open breakers have a recovery deadline *)

Lemma opens_only_by_failure o b :
  _state b <> OPEN -> _state (step o b) = OPEN ->
  exists st now opened e d,
    o = Fail st now opened e d /\ _last_failure_time (step o b) = Some now.
Proof.
  intros Hn Ho. destruct o as [now | st d | st now opened e d | |]; simpl in *.
  - rewrite (state_refresh_not_open now b Hn) in Ho. contradiction.
  - pose proof (on_success_state st d b) as (_ & _ & H). cbv zeta in H.
    destruct (_state b); try congruence.
    + destruct H as (H & _). congruence.
    + destruct (success_threshold (cfg b) <=? _success_count b + 1);
        destruct H as (H & _); congruence.
  - exists st, now, opened, e, d. split; [reflexivity |].
    apply on_failure_state.
  - contradiction.
  - discriminate.
Qed.

(** C10.  Whenever a breaker that the code can produce is OPEN, its
    [_last_failure_time] is set.  The only body that moves a breaker to OPEN
    is the failure handler, which has stamped [_last_failure_time] by then.
    Hence the recovery check has a deadline: at every time at least
    [recovery_timeout] after that stamp (a clock reading, not the zero that
    the truth test takes for "unset") the state query moves the breaker to
    HALF_OPEN. *)
Theorem open_has_failure_time b :
  reachable b ->
  _state b = OPEN ->
  (exists lf, _last_failure_time b = Some lf)
  /\ (forall o (b0 : breaker),
        _state b0 <> OPEN -> _state (step o b0) = OPEN ->
        exists st now opened e d,
          o = Fail st now opened e d
          /\ _last_failure_time (step o b0) = Some now)
  /\ (forall lf now,
        _last_failure_time b = Some lf -> lf <> 0 ->
        recovery_timeout (cfg b) <= now - lf ->
        _state (state_refresh now b) = HALF_OPEN).
Proof.
  intros Hr Ho. split; [| split].
  - apply reachable_well_formed in Hr as (_ & _ & H). exact (H Ho).
  - intros o b0. apply opens_only_by_failure.
  - intros lf now Hl Hz Ht. unfold state_refresh.
    rewrite Ho, (should_attempt_reset_true now b lf Hl Hz Ht). reflexivity.
Qed.

End WithCallable.

Import Examples.

(** C5.  A HALF_OPEN breaker with a fallback configured, whose wrapped
    callable raises the expected exception: [call] runs the callable, hands
    the failure to [_on_failure] (which reopens the breaker) and only then
    tests for HALF_OPEN, so the test fails, the fallback is not run and the
    exception propagates. *)
Theorem half_open_failure_propagates :
  _state probing = HALF_OPEN
  /\ fallback_function (cfg probing) = Some cached
  /\ expected_exception (cfg probing) boom = true
  /\ (call (within_second 1061) query_raises tt probing).1
     = {| result := Error boom;
          invoked_func := true; invoked_fallback := false |}
  /\ _state (call (within_second 1061) query_raises tt probing).2 = OPEN.
Proof. repeat split; reflexivity. Qed.


Lemma half_open_on_first_query_after_timeout_witness :
  (state 1060 (run [failure_at 1000] (postgres_main None))).1 = HALF_OPEN.
Proof.
  refine (proj1 (half_open_on_first_query_after_timeout
                   (run [failure_at 1000] (postgres_main None))
                   1060 1000 _ _ _ _)).
  - reflexivity.
  - reflexivity.
  - discriminate.
  - vm_compute. discriminate.
Defined.

Lemma closes_after_success_threshold_witness :
  _state (call_all [(within_second 1061, query_returns, tt);
                    (within_second 1062, query_returns, tt)] probing)
  = CLOSED.
Proof.
  refine (proj1 (closes_after_success_threshold probing
                   [(within_second 1061, query_returns, tt);
                    (within_second 1062, query_returns, tt)] _ _ _ _ _)).
  - eexists _, _, [failure_at 1000; Query 1060]. reflexivity.
  - reflexivity.
  - repeat constructor; eexists; reflexivity.
  - discriminate.
  - vm_compute. discriminate.
Defined.

Lemma open_has_failure_time_witness :
  exists lf,
    _last_failure_time (run [failure_at 1000] (postgres_main None)) = Some lf.
Proof.
  refine (proj1 (open_has_failure_time
                   (run [failure_at 1000] (postgres_main None)) _ _)).
  - eexists _, _, [failure_at 1000]. reflexivity.
  - reflexivity.
Defined.

End BreakerFacts.

(* ===================================================================== *)
(** * Properties of the batching consumer *)
(* ===================================================================== *)

Module ConsumerFacts.

Import OptimizedKafkaConsumer.

Lemma handler_batches_app l k :
  handler_batches (l ++ k) = handler_batches l ++ handler_batches k.
Proof. apply omap_app. Qed.

Lemma commits_app l k : commits (l ++ k) = commits l ++ commits k.
Proof. apply omap_app. Qed.

Lemma dlq_sends_app l k : dlq_sends (l ++ k) = dlq_sends l ++ dlq_sends k.
Proof. apply omap_app. Qed.

Lemma threads_started_app l k :
  threads_started (l ++ k) = threads_started l ++ threads_started k.
Proof. apply omap_app. Qed.

Lemma frame_refl c : frame c c.
Proof. repeat split. Qed.

Lemma frame_trans c1 c2 c3 : frame c1 c2 -> frame c2 c3 -> frame c1 c3.
Proof.
  unfold frame. intros (?&?&?&?&?) (?&?&?&?&?).
  repeat split; congruence.
Qed.

Section WithCollaborators.

Variable w : collaborators.

Implicit Types (c : t) (m : Message) (batch : list Message) (err : Exn).

Lemma emit_frame ev c : frame c (emit ev c).
Proof. repeat split. Qed.

(** *** Dead-letter routing *)

Lemma send_to_dlq_spec m err c :
  let c' := _send_to_dlq w m err c in
  let tp := dlq_topic_for (config c) m in
  let dm := dlq_message_for (config c) (clock w (trace c)) m err in
  frame c c'
  /\ trace c'
     = trace c ++ DlqSent tp dm (key m)
         :: match dlq_producer_send w (trace c) tp dm (key m) with
            | None => []
            | Some e => [LoggedError ("Failed to send to DLQ: " ++ exn_msg e)]
            end.
Proof.
  unfold _send_to_dlq. simpl.
  destruct (dlq_producer_send w _ _ _ _); simpl.
  - split; [repeat split |]. rewrite <- app_assoc. reflexivity.
  - split; [repeat split | reflexivity].
Qed.

(** The events one message of a failed batch adds. *)
Lemma handle_message_error_spec err c m :
  let c' := handle_message_error w err c m in
  let r := error_handler w (trace c) err m in
  frame c c'
  /\ exists evs,
       trace c' = trace c ++ ErrorHandlerCalled err m r :: evs
       /\ handler_batches evs = []
       /\ commits evs = []
       /\ dlq_sends evs
          = match r with
            | None =>
                if enable_dlq (config c) && dlq_producer c
                then [(dlq_topic_for (config c) m,
                       dlq_message_for (config c)
                         (clock w (trace c ++ [ErrorHandlerCalled err m r]))
                         m err,
                       key m)]
                else []
            | Some _ => []
            end.
Proof.
  unfold handle_message_error. simpl.
  destruct (error_handler w (trace c) err m) as [e |] eqn:Er; simpl.
  - split; [repeat split |].
    eexists. rewrite <- app_assoc. simpl. split; [reflexivity |].
    repeat split.
  - destruct (enable_dlq (config c) && dlq_producer c).
    + pose proof (send_to_dlq_spec m err
                    (emit (ErrorHandlerCalled err m None) c)) as [Hf Ht].
      cbv zeta in Hf, Ht. split.
      * eapply frame_trans; [apply emit_frame | exact Hf].
      * eexists. rewrite Ht. simpl. rewrite <- app_assoc. simpl.
        split; [reflexivity |].
        destruct (dlq_producer_send w _ _ _ _); repeat split.
    + split; [repeat split |]. exists []. repeat split.
Qed.

Lemma handle_batch_error_snoc batch m err c :
  _handle_batch_error w (batch ++ [m]) err c
  = handle_message_error w err (_handle_batch_error w batch err c) m.
Proof. unfold _handle_batch_error. rewrite foldl_app. reflexivity. Qed.

Lemma handle_batch_error_spec batch err c :
  let c' := _handle_batch_error w batch err c in
  frame c c'
  /\ exists evs,
       trace c' = trace c ++ evs
       /\ handler_batches evs = []
       /\ commits evs = [].
Proof.
  induction batch as [| m batch IH] using rev_ind.
  - simpl. split; [apply frame_refl |]. exists []. rewrite app_nil_r. auto.
  - cbv zeta in *. rewrite handle_batch_error_snoc.
    destruct IH as (Hf & evs & Ht & Hh & Hc).
    pose proof (handle_message_error_spec err
                  (_handle_batch_error w batch err c) m)
      as (Hf' & evs' & Ht' & Hh' & Hc' & _).
    cbv zeta in *. split; [eapply frame_trans; eassumption |].
    eexists. rewrite Ht', Ht, <- app_assoc. split; [reflexivity |].
    rewrite handler_batches_app, commits_app. simpl.
    rewrite Hh, Hh', Hc, Hc'. auto.
Qed.




(** *** Committing after the handler *)

Lemma commit_batch_offsets_spec batch c :
  let rc := _commit_batch_offsets w batch c in
  frame c rc.2
  /\ exists logs,
       trace rc.2 = trace c ++ CommitCalled (batch_offsets batch) :: logs
       /\ handler_batches logs = [] /\ commits logs = []
       /\ dlq_sends logs = [].
Proof.
  unfold _commit_batch_offsets. simpl.
  destruct (consumer_commit w (trace c) (batch_offsets batch)); simpl.
  - split; [repeat split |]. exists []. auto.
  - split; [repeat split |]. eexists. rewrite <- app_assoc. simpl.
    split; [reflexivity |]. auto.
  - split; [repeat split |]. exists []. auto.
Qed.

(** What [_process_batch] adds to the trace: the handler invocation first;
    then, only if the handler returned, one commit of [batch_offsets];
    then possibly log lines and the error path, which never commits. *)
Lemma process_batch_spec batch c :
  let c' := _process_batch w batch c in
  let r := message_handler w (trace c) batch in
  frame c c'
  /\ exists rest,
       trace c'
       = trace c ++ HandlerCalled batch r
           :: match r with
              | None => CommitCalled (batch_offsets batch) :: rest
              | Some _ => rest
              end
       /\ handler_batches rest = []
       /\ commits rest = [].
Proof.
  unfold _process_batch. simpl.
  destruct (message_handler w (trace c) batch) as [e |] eqn:Er.
  - pose proof (handle_batch_error_spec batch e
        (emit (LoggedError ("Error processing batch: " ++ exn_msg e))
              (emit (HandlerCalled batch (Some e)) c)))
      as (Hf & evs & Ht & Hh & Hc).
    cbv zeta in *. split.
    + eapply frame_trans; [| exact Hf]. repeat split.
    + eexists. rewrite Ht. simpl. rewrite <- !app_assoc. simpl.
      split; [reflexivity |]. simpl. auto.
  - pose proof (commit_batch_offsets_spec batch
                  (emit (HandlerCalled batch None) c))
      as (Hf & logs & Ht & Hh & Hc & _).
    cbv zeta in *.
    destruct (_commit_batch_offsets w batch _) as [[e |] c2]; simpl in *.
    + pose proof (handle_batch_error_spec batch e
          (emit (LoggedError ("Error processing batch: " ++ exn_msg e)) c2))
        as (Hf' & evs & Ht' & Hh' & Hc').
      cbv zeta in *. split.
      * eapply frame_trans; [| exact Hf'].
        eapply frame_trans; [| apply emit_frame].
        eapply frame_trans; [apply emit_frame | exact Hf].
      * eexists. rewrite Ht'. simpl. rewrite Ht, <- !app_assoc. simpl.
        split; [reflexivity |].
        rewrite !handler_batches_app, !commits_app. simpl.
        rewrite Hh, Hc, Hh', Hc'. auto.
    + split.
      * eapply frame_trans; [apply emit_frame | exact Hf].
      * eexists. rewrite Ht, <- !app_assoc. simpl. auto.
Qed.

(** *** The offsets a commit carries *)

Lemma batch_offsets_snoc batch m :
  batch_offsets (batch ++ [m])
  = <[(topic m, partition m) := offset m + 1]> (batch_offsets batch).
Proof. unfold batch_offsets. rewrite foldl_app. reflexivity. Qed.

Lemma offsets_of_snoc tp batch m :
  offsets_of tp (batch ++ [m])
  = offsets_of tp batch
    ++ (if decide ((topic m, partition m) = tp) then [offset m] else []).
Proof.
  unfold offsets_of. rewrite filter_app, fmap_app. f_equal.
  rewrite filter_cons, filter_nil. destruct (decide _); reflexivity.
Qed.

(** Each partition of the batch is committed at the offset of its last
    message plus one; no other partition is committed. *)
Lemma batch_offsets_lookup batch (tp : TopicPartition) :
  batch_offsets batch !! tp = (fun o => o + 1) <$> last_offset tp batch.
Proof.
  induction batch as [| m batch IH] using rev_ind; [reflexivity |].
  rewrite batch_offsets_snoc. unfold last_offset. rewrite offsets_of_snoc.
  destruct (decide ((topic m, partition m) = tp)) as [<- | Hne].
  - rewrite lookup_insert_eq, last_snoc. reflexivity.
  - rewrite lookup_insert_ne by exact Hne. rewrite app_nil_r. exact IH.
Qed.

Lemma foldl_max_ge (xs : list Z) x : x <= foldl Z.max x xs.
Proof.
  revert x. induction xs as [| y xs IH]; intros x; simpl; [lia |].
  specialize (IH (Z.max x y)). lia.
Qed.

Lemma foldl_max_bound (xs : list Z) x y :
  x <= y -> Forall (fun z => z <= y) xs -> foldl Z.max x xs <= y.
Proof.
  intros Hx Hall. revert x Hx.
  induction Hall as [| z xs Hz _ IH]; intros x Hx; simpl; [exact Hx |].
  apply IH. lia.
Qed.

Lemma foldl_max_snoc (xs : list Z) x y :
  foldl Z.max x (xs ++ [y]) = Z.max (foldl Z.max x xs) y.
Proof. rewrite foldl_app. reflexivity. Qed.

(** In a list that never goes down, the last element is the greatest. *)
Lemma nondecreasing_last_max (l : list Z) x xs :
  l = x :: xs -> nondecreasing l -> last l = Some (foldl Z.max x xs).
Proof.
  intros -> Hnd.
  destruct xs as [| y ys _] using rev_ind; [reflexivity |].
  rewrite app_comm_cons, last_snoc, foldl_max_snoc. f_equal.
  assert (Hb : foldl Z.max x ys <= y).
  { apply foldl_max_bound.
    - apply (Hnd 0%nat (S (length ys)) x y); [lia | reflexivity |].
      simpl. rewrite lookup_app_r by lia.
      rewrite Nat.sub_diag. reflexivity.
    - apply Forall_lookup_2. intros i z Hz.
      apply (Hnd (S i) (S (length ys)) z y).
      + apply lookup_lt_Some in Hz. lia.
      + simpl. rewrite lookup_app_l; [exact Hz |].
        apply lookup_lt_Some in Hz. exact Hz.
      + simpl. rewrite lookup_app_r by lia.
        rewrite Nat.sub_diag. reflexivity. }
  lia.
Qed.

Lemma last_offset_max tp batch :
  nondecreasing (offsets_of tp batch) ->
  last_offset tp batch = max_offset tp batch.
Proof.
  intros Hnd. unfold last_offset, max_offset.
  destruct (offsets_of tp batch) as [| x xs] eqn:E; [reflexivity |].
  apply (nondecreasing_last_max _ x xs eq_refl Hnd).
Qed.

(** C6 (as amended).  When the handler returns for a batch, exactly one
    offset commit is issued, right after the handler invocation has
    completed; it carries, for each partition that has a message in the
    batch, the offset of that partition's last message in the batch plus one,
    and nothing for other partitions.  That value is the partition's
    greatest offset plus one whenever the partition's offsets do not go down
    along the batch, which is how the source delivers them.  When the handler
    raises, no offset commit is issued. *)
Theorem commit_after_successful_batch batch c :
  let c' := _process_batch w batch c in
  match message_handler w (trace c) batch with
  | None =>
      commits (trace c') = commits (trace c) ++ [batch_offsets batch]
      /\ (exists rest,
            trace c'
            = trace c ++ HandlerCalled batch None
                :: CommitCalled (batch_offsets batch) :: rest)
      /\ (forall tp : TopicPartition,
            batch_offsets batch !! tp
            = (fun o => o + 1) <$> last_offset tp batch)
      /\ (forall tp : TopicPartition,
            nondecreasing (offsets_of tp batch) ->
            batch_offsets batch !! tp
            = (fun o => o + 1) <$> max_offset tp batch)
  | Some _ => commits (trace c') = commits (trace c)
  end.
Proof.
  intros c'.
  pose proof (process_batch_spec batch c) as (_ & rest & Ht & _ & Hc).
  cbv zeta in Ht. fold c' in Ht.
  destruct (message_handler w (trace c) batch) as [e |].
  - rewrite Ht, commits_app. simpl. rewrite Hc. apply app_nil_r.
  - split; [| split; [| split]].
    + rewrite Ht, commits_app. simpl. rewrite Hc. reflexivity.
    + exists rest. exact Ht.
    + apply batch_offsets_lookup.
    + intros tp Hnd.
      rewrite batch_offsets_lookup, last_offset_max by exact Hnd.
      reflexivity.
Qed.

(** *** The open batch buffer *)

Lemma invariant_transfer c c' :
  config c' = config c ->
  batch_queue c' = batch_queue c ->
  handler_batches (trace c') = handler_batches (trace c) ->
  buffer_invariant c -> buffer_invariant c'.
Proof. unfold buffer_invariant. intros -> -> ->. auto. Qed.

Lemma process_batch_batches batch c :
  frame c (_process_batch w batch c)
  /\ handler_batches (trace (_process_batch w batch c))
     = handler_batches (trace c) ++ [batch].
Proof.
  pose proof (process_batch_spec batch c) as (Hf & rest & Ht & Hh & _).
  cbv zeta in *. split; [exact Hf |].
  rewrite Ht, handler_batches_app.
  destruct (message_handler w (trace c) batch); simpl; rewrite Hh; reflexivity.
Qed.

Lemma flush_batch_spec c :
  let c' := _flush_batch w c in
  config c' = config c
  /\ dlq_producer c' = dlq_producer c
  /\ running c' = running c
  /\ processing_threads c' = processing_threads c
  /\ batch_queue c' = []
  /\ handler_batches (trace c')
     = handler_batches (trace c)
       ++ match batch_queue c with [] => [] | q => [q] end.
Proof.
  unfold _flush_batch.
  destruct (batch_queue c) as [| m q] eqn:E.
  - rewrite app_nil_r. repeat split; auto.
  - destruct (process_batch_batches (m :: q)
                (with_batch [] (clock w (trace c)) c))
      as ((H1 & H2 & H3 & H4 & H5) & Hh).
    cbv zeta. rewrite H1, H2, H3, H4, H5, Hh. simpl. repeat split; auto.
Qed.

(** A flush of a buffer that holds at most [batch_size] messages hands the
    handler a well-sized batch and leaves the buffer empty. *)
Lemma flush_batch_invariant c :
  1 <= batch_size (config c) ->
  Z.of_nat (length (batch_queue c)) <= batch_size (config c) ->
  Forall (batch_ok (config c)) (handler_batches (trace c)) ->
  buffer_invariant (_flush_batch w c).
Proof.
  intros Hb Hl Hall.
  pose proof (flush_batch_spec c) as (Hcf & _ & _ & _ & Hq & Hh).
  cbv zeta in *. unfold buffer_invariant. rewrite Hcf, Hq, Hh. simpl.
  split; [lia |].
  apply Forall_app. split; [exact Hall |].
  destruct (batch_queue c) as [| m q] eqn:E; constructor; [| constructor].
  split; [discriminate | exact Hl].
Qed.

Lemma add_to_batch_config r c : config (_add_to_batch w r c) = config c.
Proof.
  unfold _add_to_batch. simpl.
  destruct (_ <=? _); [| reflexivity].
  apply (flush_batch_spec (with_batch _ _ c)).
Qed.

Lemma add_to_batch_invariant r c :
  1 <= batch_size (config c) ->
  buffer_invariant c -> buffer_invariant (_add_to_batch w r c).
Proof.
  intros Hb (Hl & Hall). unfold _add_to_batch. simpl.
  rewrite length_app. simpl.
  destruct (Z.leb_spec (batch_size (config c))
                       (Z.of_nat (length (batch_queue c) + 1))) as [Hfull | ?].
  - apply flush_batch_invariant; simpl; try assumption.
    rewrite length_app. simpl. lia.
  - split; simpl; [rewrite length_app; simpl; lia | exact Hall].
Qed.

Lemma check_batch_timeout_config c :
  config (_check_batch_timeout w c) = config c.
Proof.
  unfold _check_batch_timeout.
  destruct (_ && _); [apply flush_batch_spec | reflexivity].
Qed.

Lemma check_batch_timeout_invariant c :
  1 <= batch_size (config c) ->
  buffer_invariant c -> buffer_invariant (_check_batch_timeout w c).
Proof.
  intros Hb (Hl & Hall). unfold _check_batch_timeout.
  destruct (_ && _); [| split; assumption].
  apply flush_batch_invariant; try assumption. lia.
Qed.

Lemma emit_joined_spec (ths : list string) c :
  let c' := foldl (fun c th => emit (ThreadJoined th) c) c ths in
  config c' = config c /\ batch_queue c' = batch_queue c
  /\ dlq_producer c' = dlq_producer c
  /\ handler_batches (trace c') = handler_batches (trace c).
Proof.
  revert c. induction ths as [| th ths IH]; intros c; simpl; [auto |].
  destruct (IH (emit (ThreadJoined th) c)) as (H1 & H2 & H3 & H4).
  rewrite H1, H2, H3, H4. simpl. rewrite handler_batches_app. simpl.
  rewrite app_nil_r. auto.
Qed.

Lemma stop_unheld c :
  left_by (stop w false c)
  = let c1 := _flush_batch w (with_running false c) in
    let c2 := foldl (fun c th => emit (ThreadJoined th) c) c1
                    (processing_threads c1) in
    let c3 := emit ConsumerClosed c2 in
    if dlq_producer c3 then emit ProducerClosed c3 else c3.
Proof. reflexivity. Qed.

Lemma stop_spec c :
  config (left_by (stop w false c)) = config c
  /\ batch_queue (left_by (stop w false c)) = []
  /\ handler_batches (trace (left_by (stop w false c)))
     = handler_batches (trace (_flush_batch w (with_running false c))).
Proof.
  rewrite stop_unheld.
  pose proof (flush_batch_spec (with_running false c))
    as (Hcf & _ & _ & _ & Hq & _).
  cbv zeta in *.
  set (c1 := _flush_batch w (with_running false c)) in *.
  destruct (emit_joined_spec (processing_threads c1) c1) as (H1 & H2 & H3 & H4).
  set (c2 := foldl _ c1 _) in *. simpl.
  destruct (dlq_producer c2); simpl;
    rewrite ?handler_batches_app; simpl; rewrite ?app_nil_r;
    rewrite H1, H2, H4, Hcf, Hq; auto.
Qed.

Lemma stop_invariant c :
  1 <= batch_size (config c) ->
  buffer_invariant c -> buffer_invariant (left_by (stop w false c)).
Proof.
  intros Hb (Hl & Hall).
  destruct (stop_spec c) as (Hcf & Hq & Hh).
  assert (Hi : buffer_invariant (_flush_batch w (with_running false c))).
  { apply flush_batch_invariant; simpl; try assumption. lia. }
  destruct Hi as (_ & Hall').
  pose proof (flush_batch_spec (with_running false c)) as (Hcf' & _).
  cbv zeta in Hcf'. simpl in Hcf'.
  unfold buffer_invariant. rewrite Hcf, Hq, Hh. simpl. split; [lia |].
  rewrite <- Hcf'. exact Hall'.
Qed.

Lemma add_all_invariant (rs : list ConsumerRecord) c :
  1 <= batch_size (config c) ->
  buffer_invariant c ->
  let c' := foldl (fun c r => _add_to_batch w r c) c rs in
  config c' = config c /\ buffer_invariant c'.
Proof.
  revert c. induction rs as [| r rs IH]; intros c Hb Hi; simpl; [auto |].
  destruct (IH (_add_to_batch w r c)) as [H1 H2].
  - rewrite add_to_batch_config. exact Hb.
  - apply add_to_batch_invariant; assumption.
  - rewrite H1, add_to_batch_config in *. auto.
Qed.

Lemma add_parts_invariant
    (parts : list (TopicPartition * list ConsumerRecord)) c :
  1 <= batch_size (config c) ->
  buffer_invariant c ->
  let c' := foldl (fun c p => foldl (fun c r => _add_to_batch w r c) c p.2)
                  c parts in
  config c' = config c /\ buffer_invariant c'.
Proof.
  revert c. induction parts as [| p parts IH]; intros c Hb Hi; simpl; [auto |].
  destruct (add_all_invariant p.2 c Hb Hi) as [H1 H2]. cbv zeta in *.
  destruct (IH (foldl (fun c r => _add_to_batch w r c) c p.2)) as [H3 H4];
    [rewrite H1; exact Hb | exact H2 |].
  rewrite H3, H1. auto.
Qed.

Lemma emit_invariant ev c :
  (forall b r, ev <> HandlerCalled b r) ->
  buffer_invariant c -> buffer_invariant (emit ev c).
Proof.
  intros Hev. apply invariant_transfer; try reflexivity.
  simpl. rewrite handler_batches_app.
  destruct ev; simpl; rewrite ?app_nil_r; try reflexivity.
  exfalso. eapply Hev. reflexivity.
Qed.

Lemma consume_once_invariant c :
  1 <= batch_size (config c) ->
  buffer_invariant c ->
  config (consume_once w c) = config c /\ buffer_invariant (consume_once w c).
Proof.
  intros Hb Hi. unfold consume_once.
  assert (Hp : buffer_invariant (emit Polled c))
    by (apply emit_invariant; [discriminate | exact Hi]).
  destruct (consumer_poll w (trace c)) as [[| p parts] | e |].
  - split; [apply (check_batch_timeout_config (emit Polled c)) |].
    apply check_batch_timeout_invariant; assumption.
  - apply (add_parts_invariant (p :: parts) (emit Polled c) Hb Hp).
  - split; [reflexivity |]. apply emit_invariant; [discriminate | exact Hp].
  - split; [apply (stop_spec (emit Polled c)) |].
    apply stop_invariant; assumption.
Qed.

Lemma step_invariant o c :
  1 <= batch_size (config c) ->
  buffer_invariant c ->
  config (step w o c) = config c /\ buffer_invariant (step w o c).
Proof.
  intros Hb Hi. destruct o as [r | | | |]; simpl.
  - split; [apply add_to_batch_config | apply add_to_batch_invariant; auto].
  - split; [apply check_batch_timeout_config
           | apply check_batch_timeout_invariant; auto].
  - split; [apply flush_batch_spec |].
    destruct Hi as (Hl & Hall). apply flush_batch_invariant; auto. lia.
  - apply consume_once_invariant; assumption.
  - split; [apply stop_spec | apply stop_invariant; auto].
Qed.

Lemma consumer_run_snoc ops o c :
  run w (ops ++ [o]) c = step w o (run w ops c).
Proof. unfold run. rewrite foldl_app. reflexivity. Qed.

Lemma run_invariant ops (cf : ConsumerConfig) :
  1 <= batch_size cf ->
  config (run w ops (__init__ w cf)) = cf
  /\ buffer_invariant (run w ops (__init__ w cf)).
Proof.
  intros Hb. induction ops as [| o ops [IHc IHi]] using rev_ind.
  - split; [reflexivity |]. split; simpl; [lia | constructor].
  - rewrite consumer_run_snoc.
    destruct (step_invariant o (run w ops (__init__ w cf))) as [H1 H2];
      [rewrite IHc; exact Hb | exact IHi |].
    rewrite H1. auto.
Qed.

(** C9.  With a batch size of at least one, whatever the consumer is asked
    to do after construction: every batch that has been passed to the
    message handler is non-empty and holds at most [batch_size] messages,
    and the open buffer holds fewer than [batch_size] messages.  Every flush
    leaves the buffer empty.  Adding the record that brings the buffer to
    [batch_size] flushes at once: the whole buffer goes to the handler as
    one batch. *)
Theorem batches_bounded ops (cf : ConsumerConfig) :
  1 <= batch_size cf ->
  let c := run w ops (__init__ w cf) in
  Forall (batch_ok cf) (handler_batches (trace c))
  /\ Z.of_nat (length (batch_queue c)) < batch_size cf
  /\ (forall c0, batch_queue (_flush_batch w c0) = [])
  /\ (forall r c0,
        batch_size (config c0) <= Z.of_nat (length (batch_queue c0)) + 1 ->
        batch_queue (_add_to_batch w r c0) = []
        /\ handler_batches (trace (_add_to_batch w r c0))
           = handler_batches (trace c0) ++ [batch_queue c0 ++ [message_of r]]).
Proof.
  intros Hb c. destruct (run_invariant ops cf Hb) as [Hcf [Hl Hall]].
  fold c in Hcf, Hl, Hall. rewrite Hcf in Hl, Hall.
  split; [exact Hall |]. split; [exact Hl |]. split.
  - intros c0. apply flush_batch_spec.
  - intros r c0 Hfull. unfold _add_to_batch. simpl.
    rewrite length_app. simpl.
    destruct (Z.leb_spec (batch_size (config c0))
                (Z.of_nat (length (batch_queue c0) + 1))) as [_ | ?]; [| lia].
    pose proof (flush_batch_spec
                  (with_batch (batch_queue c0 ++ [message_of r])
                              (last_batch_time c0) c0))
      as (_ & _ & _ & _ & Hq & Hh).
    cbv zeta in *. simpl in Hh. split; [exact Hq |]. rewrite Hh.
    destruct (batch_queue c0 ++ [message_of r]) eqn:E; [| reflexivity].
    apply app_eq_nil in E as [_ E]. discriminate.
Qed.

(** *** Starting *)

Lemma spawn_workers_spec (ids : list nat) c :
  let c' := foldl (fun c i =>
                     with_threads (processing_threads c ++ [worker_name i])
                                  (emit (ThreadStarted (worker_name i)) c))
                  c ids in
  processing_threads c' = processing_threads c ++ (worker_name <$> ids)
  /\ threads_started (trace c')
     = threads_started (trace c) ++ (worker_name <$> ids)
  /\ running c' = running c
  /\ config c' = config c.
Proof.
  revert c. induction ids as [| i ids IH]; intros c; simpl.
  - rewrite !app_nil_r. auto.
  - destruct (IH (with_threads (processing_threads c ++ [worker_name i])
                    (emit (ThreadStarted (worker_name i)) c)))
      as (H1 & H2 & H3 & H4).
    rewrite H1, H2, H3, H4. simpl.
    rewrite threads_started_app, <- !app_assoc. simpl. auto.
Qed.

(** C8 (as amended).  [start] has no guard and does not look at [running]:
    every call, on a consumer that is already running as on a fresh one,
    sets [running], starts [num_workers] more worker threads and appends them
    to [processing_threads], starts one more lag-monitor thread, and enters
    the poll loop, whose first pass polls the source. *)
Theorem start_spawns_every_time (fuel : nat) c :
  let n := Z.to_nat (num_workers (config c)) in
  let c' := start_threads c in
  running c' = true
  /\ processing_threads c'
     = processing_threads c ++ (worker_name <$> seq 0 n)
  /\ threads_started (trace c')
     = threads_started (trace c)
       ++ (worker_name <$> seq 0 n) ++ ["lag-monitor"%string]
  /\ start w (S fuel) c = _consume_messages w fuel (consume_once w c').
Proof.
  intros n c'.
  pose proof (spawn_workers_spec (seq 0 n) (with_running true c))
    as (H1 & H2 & H3 & H4).
  cbv zeta in *. simpl in H1, H2, H3, H4.
  assert (Hr : running c' = true) by (subst c'; unfold start_threads; simpl;
                                      exact H3).
  split; [exact Hr |]. split; [| split].
  - subst c'. unfold start_threads. simpl. exact H1.
  - subst c'. unfold start_threads. simpl.
    rewrite threads_started_app. simpl. fold n. rewrite H2, <- app_assoc.
    reflexivity.
  - unfold start. fold c'.
    change (_consume_messages w (S fuel) c')
      with (if running c' then _consume_messages w fuel (consume_once w c')
            else c').
    rewrite Hr. reflexivity.
Qed.

End WithCollaborators.

Import Examples.

(** C6, counterexample to "greatest offset plus one": a batch that holds
    offset 5 and then offset 3 of one partition (a redelivery after a
    rebalance) is handled successfully; the one commit carries 4 for that
    partition, not 6. *)
Lemma commit_offset_counterexample :
  let w := quiet_broker None None in
  let c := __init__ w (platform_config 1000) in
  let batch := [event_message 0 5; event_message 0 3] in
  let tp : TopicPartition := ("platform-events"%string, 0) in
  message_handler w (trace c) batch = None
  /\ max_offset tp batch = Some 5
  /\ commits (trace (_process_batch w batch c)) = [batch_offsets batch]
  /\ batch_offsets batch !! tp = Some 4
  /\ batch_offsets batch !! tp <> Some (5 + 1).
Proof.
  cbv zeta. split; [reflexivity |]. split; [reflexivity |].
  split; [reflexivity |].
  assert (H : batch_offsets [event_message 0 5; event_message 0 3]
              !! (("platform-events"%string, 0) : TopicPartition) = Some 4).
  { rewrite batch_offsets_lookup. reflexivity. }
  split; [exact H |]. rewrite H. discriminate.
Qed.



(** C8, counterexample to the guard: a consumer whose first [start] is in
    its poll loop ([running] is set) is started again; it then has eight
    worker threads and two lag monitors, and the source has been polled by
    both loops. *)
Lemma second_start_counterexample :
  let w := quiet_broker None None in
  let c1 := start w 1 (__init__ w (platform_config 1000)) in
  let c2 := start w 1 c1 in
  running c1 = true
  /\ num_workers (config c1) = 4
  /\ length (processing_threads c1) = 4%nat
  /\ length (processing_threads c2) = 8%nat
  /\ threads_started (trace c2)
     = ["kafka-worker-0"; "kafka-worker-1"; "kafka-worker-2";
        "kafka-worker-3"; "lag-monitor";
        "kafka-worker-0"; "kafka-worker-1"; "kafka-worker-2";
        "kafka-worker-3"; "lag-monitor"]%string
  /\ polls (trace c1) = 1%nat
  /\ polls (trace c2) = 2%nat.
Proof. cbv zeta. repeat split; vm_compute; reflexivity. Qed.

Lemma batches_bounded_witness :
  let w := quiet_broker None None in
  let c := run w [AddToBatch (event_record 0 5); AddToBatch (event_record 0 6);
                  AddToBatch (event_record 1 9)]
               (__init__ w (platform_config 2)) in
  Forall (batch_ok (platform_config 2)) (handler_batches (trace c))
  /\ Z.of_nat (length (batch_queue c)) < 2.
Proof.
  intros w c.
  pose proof (batches_bounded w
                [AddToBatch (event_record 0 5); AddToBatch (event_record 0 6);
                 AddToBatch (event_record 1 9)]
                (platform_config 2)) as H.
  simpl in H. destruct H as (H1 & H2 & _); [lia |].
  split; [exact H1 | exact H2].
Defined.

End ConsumerFacts.

(* ===================================================================== *)
(** * The specification's end-to-end scenarios, run on the model *)
(* ===================================================================== *)

Module Scenarios.

Import Examples.

Section Breaker.

Import CircuitBreaker.

(** Two failures leave the warmed breaker closed; the third opens it. *)
Example two_failures_stay_closed :
  _state (call_all (failing_calls 1000 2) warmed) = CLOSED.
Proof. reflexivity. Qed.

Example three_failures_open :
  _state (call_all (failing_calls 1000 3) warmed) = OPEN
  /\ _last_failure_time (call_all (failing_calls 1000 3) warmed) = Some 1002.
Proof. split; reflexivity. Qed.

(** A call right away is rejected without running the callable. *)
Example immediate_call_rejected :
  (call (within_second 1003) query_raises tt
        (call_all (failing_calls 1000 3) warmed)).1
  = {| result :=
         CircuitBreakerError "Circuit breaker 'postgres_main' is OPEN";
       invoked_func := false; invoked_fallback := false |}.
Proof. reflexivity. Qed.

(** Sixty-one seconds later the call is a probe; it fails and the breaker is
    open again, with the failure time moved. *)
Example probe_fails_and_reopens :
  let r := call (within_second 1063) query_raises tt
                (call_all (failing_calls 1000 3) warmed) in
  invoked_func r.1 = true
  /\ result r.1 = Error boom
  /\ _state r.2 = OPEN
  /\ _last_failure_time r.2 = Some 1063
  /\ state_changes r.2 = [OPEN; HALF_OPEN; OPEN].
Proof. cbv zeta. repeat split; reflexivity. Qed.

(** On a fresh breaker the first failure alone makes the failure rate 1 and
    opens the circuit under the default rate threshold of one half. *)
Example fresh_breaker_opens_at_first_failure :
  _state (call_all (failing_calls 1000 1) (postgres_main None)) = OPEN.
Proof. reflexivity. Qed.

(** A failure stamped by a clock that reads zero is taken for "no failure
    yet": such a breaker is never probed. *)
Example zero_stamp_never_probes :
  let b := run [Fail (at_second 0) 0 0 boom 1] (postgres_main None) in
  _state b = OPEN
  /\ _last_failure_time b = Some 0
  /\ state 1000000 b = (OPEN, b).
Proof. cbv zeta. repeat split; reflexivity. Qed.

End Breaker.

Section Consumer.

Import OptimizedKafkaConsumer.

(** Six records of two partitions with a batch size of two: three batches
    reach the handler, each followed by one commit, and the records keep
    their order. *)
Example six_records_three_batches :
  let w := delivering_broker two_partitions in
  let c := start w 1 (__init__ w (platform_config 2)) in
  handler_batches (trace c)
  = [[event_message 0 10; event_message 0 11];
     [event_message 0 12; event_message 1 20];
     [event_message 1 21; event_message 1 22]]
  /\ length (commits (trace c)) = 3%nat
  /\ batch_queue c = [].
Proof. cbv zeta. repeat split; reflexivity. Qed.

(** The middle batch spans both partitions; its commit carries one offset
    for each. *)
Example mixed_batch_commit :
  let offs := batch_offsets [event_message 0 12; event_message 1 20] in
  offs !! (("platform-events"%string, 0) : TopicPartition) = Some 13
  /\ offs !! (("platform-events"%string, 1) : TopicPartition) = Some 21.
Proof. cbv zeta. rewrite !ConsumerFacts.batch_offsets_lookup. split; reflexivity. Qed.

End Consumer.

End Scenarios.

(* ===================================================================== *)
(** * Further properties of the metrics recorder *)
(* ===================================================================== *)

Module MetricsMore.

Import CircuitBreakerMetrics MetricsViews.

Lemma failures_le_length (l : list entry) : (failures l <= length l)%nat.
Proof. unfold failures. apply length_filter. Qed.

(** X1.  The failure rate is a fraction: whatever the recorder holds,
    [get_failure_rate] lies between 0 and 1. *)
Theorem failure_rate_is_fraction (m : t) :
  (0 <= get_failure_rate m)%Q /\ (get_failure_rate m <= 1)%Q.
Proof.
  unfold get_failure_rate.
  destruct (calls m) as [| c l] eqn:E; [split; discriminate |].
  rewrite <- E.
  assert (Hpos : (0 < inject_Z (Z.of_nat (length (calls m))))%Q).
  { rewrite E. simpl length. rewrite <- (Zlt_Qlt 0). lia. }
  pose proof (failures_le_length (calls m)) as Hle.
  split.
  - apply Qle_shift_div_l; [exact Hpos |].
    rewrite Qmult_0_l. rewrite <- (Zle_Qle 0). lia.
  - apply Qle_shift_div_r; [exact Hpos |].
    rewrite Qmult_1_l. rewrite <- Zle_Qle. lia.
Qed.

Lemma play_snoc' (evs : list event) (ev : event) (m : t) :
  play (evs ++ [ev]) m = record ev (play evs m).
Proof. unfold play. rewrite foldl_app. reflexivity. Qed.

(** X2.  On a recorder that starts fresh, each counter counts its own kind
    of call: [successful_calls], [failed_calls] and [rejected_calls] are the
    numbers of successes, failures and rejections recorded, and
    [total_calls] is their sum, the number of calls recorded. *)
Theorem counters_count_calls (W : nat) (evs : list event) :
  let m := play evs (__init__ W) in
  successful_calls m = Z.of_nat (count_success evs)
  /\ failed_calls m = Z.of_nat (count_failure evs)
  /\ rejected_calls m = Z.of_nat (count_rejection evs)
  /\ total_calls m = Z.of_nat (length evs)
  /\ total_calls m = successful_calls m + failed_calls m + rejected_calls m.
Proof.
  induction evs as [| ev evs IH] using rev_ind; [repeat split |].
  cbv zeta in *. destruct IH as (Hs & Hf & Hr & Ht & Hsum).
  rewrite play_snoc'.
  unfold count_success, count_failure, count_rejection in *.
  rewrite !omap_app, !length_app.
  destruct ev; simpl; repeat split; lia.
Qed.

(** X3.  [last_success_time] and [last_failure_time] hold the time of the
    latest success and of the latest failure recorded, and stay unset until
    there is one; a rejection touches neither. *)
Theorem last_times_are_latest (W : nat) (evs : list event) :
  let m := play evs (__init__ W) in
  last_success_time m = last (success_times evs)
  /\ last_failure_time m = last (failure_times evs).
Proof.
  induction evs as [| ev evs IH] using rev_ind; [split; reflexivity |].
  cbv zeta in *. destruct IH as (Hs & Hf).
  rewrite play_snoc'. unfold success_times, failure_times in *.
  rewrite !omap_app.
  destruct ev; simpl; rewrite ?app_nil_r, ?last_snoc; auto.
Qed.

Lemma append_length {A} (W : nat) (x : A) (l : list A) :
  (length l <= W)%nat ->
  (length (deque.append W x l) <= W)%nat
  /\ (length (deque.append W x l) <= length l + 1)%nat.
Proof.
  intros H. unfold deque.append. rewrite length_app. simpl.
  destruct (Nat.ltb_spec W (length l + 1)).
  - destruct l as [| y l]; simpl in *; [lia |].
    rewrite length_app. simpl. lia.
  - rewrite length_app. simpl. lia.
Qed.

Lemma init_consistent (W : nat) : consistent (__init__ W).
Proof. unfold consistent. simpl. repeat split; lia. Qed.

Lemma record_consistent (ev : event) (m : t) :
  consistent m -> consistent (record ev m).
Proof.
  intros (Hl & Hs & Hf & Hr & Ht & Hc).
  pose proof (fun x => append_length (window_size m) x (calls m) Hl) as Happ.
  destruct ev as [st d | st e d |]; unfold consistent; simpl;
    [destruct (Happ (success_entry st d)) as [H1 H2]
    | destruct (Happ (failure_entry st e d)) as [H1 H2] |];
    repeat split; try lia; try assumption.
Qed.

Lemma set_opened_consistent (o : option Z) (m : t) :
  consistent m -> consistent (set_circuit_opened_at o m).
Proof. intros H. exact H. Qed.

End MetricsMore.

(* ===================================================================== *)
(** * Further properties of the circuit breaker *)
(* ===================================================================== *)

Module BreakerMore.

Import CircuitBreaker BreakerViews.

Section WithCallable.

Context {Args Value : Type}.

Local Abbreviation breaker := (t Args Value).

Implicit Types (b : breaker) (o : op) (ops : list op).

(** X4.  An exception that is not an instance of [expected_exception]
    passes through a breaker that lets the call in: it propagates to the
    caller, the fallback is not used, and nothing is recorded (the breaker is
    left as the state query on entry left it, its metrics untouched). *)
Theorem unexpected_exception_passes_through b (ck : call_clock)
    (func : Args -> outcome Value) (args : Args) e :
  (state (at_check ck) b).1 <> OPEN ->
  func args = Raised e ->
  expected_exception (cfg b) e = false ->
  (call ck func args b).1
  = {| result := Error e; invoked_func := true; invoked_fallback := false |}
  /\ (call ck func args b).2 = (state (at_check ck) b).2
  /\ metrics (call ck func args b).2 = metrics b
  /\ _failure_count (call ck func args b).2
     = _failure_count (state (at_check ck) b).2.
Proof.
  intros Hs Hf He. unfold call, state in *. simpl in Hs.
  rewrite Hf, (BreakerFacts.state_refresh_cfg (at_check ck) b), He.
  assert (Hm : metrics (state_refresh (at_check ck) b) = metrics b).
  { destruct (BreakerFacts.state_refresh_cases (at_check ck) b)
      as [-> | (_ & _ & ->)]; reflexivity. }
  destruct (_state (state_refresh (at_check ck) b)); try congruence;
    simpl; auto.
Qed.

Lemma step_counters_fit o b : counters_fit b -> counters_fit (step o b).
Proof.
  unfold counters_fit.
  destruct o as [now | st d | st now opened e d | |]; simpl.
  - destruct (BreakerFacts.state_refresh_cases now b)
      as [-> | (_ & _ & ->)]; [auto | simpl; auto].
  - pose proof (BreakerFacts.on_success_state st d b) as (Hc & _ & H).
    cbv zeta in H, Hc. rewrite Hc.
    destruct (_state b) eqn:E.
    + destruct H as (-> & -> & ->). intros [H _]. auto.
    + destruct H as (-> & -> & ->). intros [_ H]. auto.
    + destruct (Z.leb_spec (success_threshold (cfg b)) (_success_count b + 1));
        destruct H as (-> & -> & ->); intros [H1 H2]; split; auto.
      right. lia.
  - pose proof (BreakerFacts.on_failure_state st now opened e d b)
      as (_ & Hc & H).
    cbv zeta in H, Hc. rewrite Hc.
    destruct H as [(_ & -> & -> & -> & _)
                  | [(E & -> & -> & -> & _) | (E & -> & H1 & H2 & -> & _)]].
    + auto.
    + rewrite E. auto.
    + rewrite E. intros [Hs Hf]. split; [exact Hs |]. right. lia.
  - auto.
  - auto.
Qed.

(** X5.  The counters are zeroed with every transition and never run past
    their thresholds: in every breaker the code can produce, an OPEN breaker
    has both counters at 0; a CLOSED one has [_success_count] 0 and a
    [_failure_count] that is 0 or below [failure_threshold]; a HALF_OPEN one
    has [_failure_count] 0 and a [_success_count] that is 0 or below
    [success_threshold]. *)
Theorem counters_fit_state b :
  reachable b ->
  match _state b with
  | OPEN => _failure_count b = 0 /\ _success_count b = 0
  | CLOSED =>
      _success_count b = 0
      /\ (_failure_count b = 0
          \/ 0 < _failure_count b < failure_threshold (cfg b))
  | HALF_OPEN =>
      _failure_count b = 0
      /\ (_success_count b = 0
          \/ 0 < _success_count b < success_threshold (cfg b))
  end.
Proof.
  intros (c & w & ops & ->). change (counters_fit (run ops (__init__ c w))).
  induction ops as [| o ops IH] using rev_ind.
  - unfold counters_fit. simpl. auto.
  - rewrite BreakerFacts.run_snoc. apply step_counters_fit, IH.
Qed.

Lemma told_open (at_ : Z) b : told_state (_transition_to_open at_ b).
Proof.
  unfold told_state, _transition_to_open.
  cbn [state_changes _state metrics CircuitBreakerMetrics.circuit_opened_at
       CircuitBreakerMetrics.set_circuit_opened_at].
  rewrite last_snoc. split; [auto | split; discriminate].
Qed.

Lemma told_closed b : told_state (_transition_to_closed b).
Proof.
  unfold told_state, _transition_to_closed.
  cbn [state_changes _state metrics CircuitBreakerMetrics.circuit_opened_at
       CircuitBreakerMetrics.set_circuit_opened_at].
  rewrite last_snoc. split; [auto | split; reflexivity].
Qed.

Lemma told_half_open b :
  told_state b -> _state b = OPEN -> told_state (_transition_to_half_open b).
Proof.
  unfold told_state, _transition_to_half_open. intros [_ Ho] E.
  cbn [state_changes _state metrics]. rewrite last_snoc.
  split; [auto |]. rewrite E in Ho.
  split; [intros H; apply Ho in H; discriminate | discriminate].
Qed.

Lemma told_same b b' :
  told_state b ->
  state_changes b' = state_changes b ->
  _state b' = _state b ->
  CircuitBreakerMetrics.circuit_opened_at (metrics b')
  = CircuitBreakerMetrics.circuit_opened_at (metrics b) ->
  told_state b'.
Proof. unfold told_state. intros H -> -> ->. exact H. Qed.

Lemma step_told_state o b : told_state b -> told_state (step o b).
Proof.
  intros H.
  destruct o as [now | st d | st now opened e d | |];
    cbn [step].
  - destruct (BreakerFacts.state_refresh_cases now b)
      as [-> | (E & _ & ->)]; [exact H | apply told_half_open; assumption].
  - unfold _on_success.
    set (b1 := with_metrics _ b).
    assert (H1 : told_state b1) by (apply (told_same b); auto).
    destruct (_state b1) eqn:E.
    + apply (told_same b1); auto.
    + apply (told_same b1); auto.
    + cbv zeta. destruct (_ <=? _); [apply told_closed |].
      apply (told_same b1); auto.
  - unfold _on_failure.
    set (b1 := with_metrics _ b). cbv zeta.
    assert (H1 : told_state (with_last_failure_time now b1))
      by (apply (told_same b); auto).
    destruct (_state (with_last_failure_time now b1)) eqn:E.
    + destruct (_ || _); [apply told_open |].
      apply (told_same (with_last_failure_time now b1)); auto.
    + exact H1.
    + apply told_open.
  - apply (told_same b); auto.
  - apply told_closed.
Qed.

(** X6.  Listeners and the metrics always know the state: in every breaker
    the code can produce, the state of the latest notification is the
    breaker's state (a breaker that has notified nothing is CLOSED), and
    [circuit_opened_at] is unset exactly while the breaker is CLOSED. *)
Theorem listeners_know_the_state b :
  reachable b ->
  ((state_changes b = [] /\ _state b = CLOSED)
   \/ last (state_changes b) = Some (_state b))
  /\ (CircuitBreakerMetrics.circuit_opened_at (metrics b) = None
      <-> _state b = CLOSED).
Proof.
  intros (c & w & ops & ->). change (told_state (run ops (__init__ c w))).
  induction ops as [| o ops IH] using rev_ind.
  - unfold told_state. simpl. split; [auto | split; reflexivity].
  - rewrite BreakerFacts.run_snoc. apply step_told_state, IH.
Qed.

Lemma step_metrics_consistent o b :
  MetricsViews.consistent (metrics b) ->
  MetricsViews.consistent (metrics (step o b))
  /\ CircuitBreakerMetrics.window_size (metrics (step o b))
     = CircuitBreakerMetrics.window_size (metrics b).
Proof.
  intros H.
  pose proof (fun ev => MetricsMore.record_consistent ev (metrics b) H) as Hr.
  destruct o as [now | st d | st now opened e d | |]; simpl.
  - unfold state_refresh. destruct (_state b); try (split; [exact H | auto]).
    destruct (_should_attempt_reset now b); split; auto.
  - specialize (Hr (CircuitBreakerMetrics.Success st d)).
    unfold _on_success. simpl.
    destruct (_state b); simpl; try (split; [exact Hr | reflexivity]).
    destruct (_ <=? _); simpl; split; auto.
  - specialize (Hr (CircuitBreakerMetrics.Failure st e d)).
    unfold _on_failure. simpl.
    destruct (_state b); simpl; try (split; [exact Hr | reflexivity]).
    destruct (_ || _); simpl; split; auto.
  - split; [exact (Hr CircuitBreakerMetrics.Rejection) | reflexivity].
  - split; [exact H | reflexivity].
Qed.

(** X7.  The metrics of a breaker stay consistent through everything the
    breaker does: the rolling window never holds more than the configured
    [window_size] entries, no counter is negative, [total_calls] is the sum
    of the successful, failed and rejected calls, and the window holds no
    more entries than there were successes and failures. *)
Theorem breaker_metrics_consistent (c : config Args Value) (w : nat) ops :
  let m := metrics (run ops (__init__ c w)) in
  CircuitBreakerMetrics.window_size m = w
  /\ (length (CircuitBreakerMetrics.calls m) <= w)%nat
  /\ 0 <= CircuitBreakerMetrics.successful_calls m
  /\ 0 <= CircuitBreakerMetrics.failed_calls m
  /\ 0 <= CircuitBreakerMetrics.rejected_calls m
  /\ CircuitBreakerMetrics.total_calls m
     = CircuitBreakerMetrics.successful_calls m
       + CircuitBreakerMetrics.failed_calls m
       + CircuitBreakerMetrics.rejected_calls m
  /\ Z.of_nat (length (CircuitBreakerMetrics.calls m))
     <= CircuitBreakerMetrics.successful_calls m
        + CircuitBreakerMetrics.failed_calls m.
Proof.
  cbv zeta.
  assert (H : MetricsViews.consistent (metrics (run ops (__init__ c w)))
              /\ CircuitBreakerMetrics.window_size
                   (metrics (run ops (__init__ c w))) = w).
  { induction ops as [| o ops [IH1 IH2]] using rev_ind.
    - split; [apply MetricsMore.init_consistent | reflexivity].
    - rewrite BreakerFacts.run_snoc.
      destruct (step_metrics_consistent o _ IH1) as [H1 H2].
      split; [exact H1 | congruence]. }
  destruct H as [(H1 & H2 & H3 & H4 & H5 & H6) Hw].
  rewrite Hw in H1. repeat split; assumption.
Qed.


(** *** Opening on the failure rate *)

Lemma all_failed_rate (l : list CircuitBreakerMetrics.entry) :
  l <> [] ->
  Forall (fun c => CircuitBreakerMetrics.success c = false) l ->
  (inject_Z (Z.of_nat (CircuitBreakerMetrics.failures l))
   / inject_Z (Z.of_nat (length l)) == 1)%Q.
Proof.
  intros Hne Hall. unfold CircuitBreakerMetrics.failures.
  assert (Hf : filter (fun c => CircuitBreakerMetrics.success c = false) l = l).
  { induction Hall as [| c l Hc _ IH]; [reflexivity |].
    rewrite filter_cons_True by exact Hc.
    destruct l; [reflexivity |]. f_equal. apply IH. discriminate. }
  rewrite Hf. apply Qmult_inv_r.
  destruct l; [congruence |]. simpl length. intros H.
  unfold Qeq in H. simpl in H. lia.
Qed.

Lemma append_all_failed (W : nat) (x : CircuitBreakerMetrics.entry)
    (l : list CircuitBreakerMetrics.entry) :
  (1 <= W)%nat ->
  CircuitBreakerMetrics.success x = false ->
  Forall (fun c => CircuitBreakerMetrics.success c = false) l ->
  deque.append W x l <> []
  /\ Forall (fun c => CircuitBreakerMetrics.success c = false)
            (deque.append W x l).
Proof.
  intros HW Hx Hl.
  assert (Hall : Forall (fun c => CircuitBreakerMetrics.success c = false)
                        (l ++ [x])).
  { apply Forall_app. split; [exact Hl | constructor; [exact Hx | constructor]]. }
  unfold deque.append. rewrite length_app. simpl.
  destruct (Nat.ltb_spec W (length l + 1)).
  - destruct l as [| y l]; simpl in *; [lia |].
    split; [destruct l; discriminate |].
    inversion Hall; assumption.
  - split; [destruct l; discriminate | exact Hall].
Qed.

Lemma on_failure_opens_all_failed {Args' Value' : Type}
    st now opened e d (b : t Args' Value') :
  _state b = CLOSED ->
  (1 <= CircuitBreakerMetrics.window_size (metrics b))%nat ->
  Forall (fun c => CircuitBreakerMetrics.success c = false)
         (CircuitBreakerMetrics.calls (metrics b)) ->
  (failure_rate_threshold (cfg b) <= 1)%Q ->
  _state (_on_failure st now opened e d b) = OPEN.
Proof.
  intros E HW Hall Hthr. unfold _on_failure. simpl. rewrite E.
  destruct (append_all_failed (CircuitBreakerMetrics.window_size (metrics b))
              (CircuitBreakerMetrics.failure_entry st e d)
              (CircuitBreakerMetrics.calls (metrics b)) HW eq_refl Hall)
    as [Hne Hall'].
  assert (Hq : Qle_bool (failure_rate_threshold (cfg b))
                 (CircuitBreakerMetrics.get_failure_rate
                    (CircuitBreakerMetrics.record_failure st e d (metrics b)))
               = true).
  { apply Qle_bool_iff. unfold CircuitBreakerMetrics.get_failure_rate.
    simpl CircuitBreakerMetrics.calls.
    destruct (deque.append _ _ _) as [| c l] eqn:Ea; [congruence |].
    rewrite (all_failed_rate (c :: l)); [exact Hthr | discriminate | exact Hall']. }
  rewrite Hq, orb_true_r. reflexivity.
Qed.

(** X8.  A failure opens a CLOSED breaker whose rolling window holds no
    success, whatever [failure_threshold] is, as soon as the window can hold
    an entry and [failure_rate_threshold] is at most 1: the failure rate is
    then 1.  So the very first call of a breaker, if it fails, opens it. *)
Theorem failure_opens_when_window_all_failed st now opened e d b :
  _state b = CLOSED ->
  (1 <= CircuitBreakerMetrics.window_size (metrics b))%nat ->
  Forall (fun c => CircuitBreakerMetrics.success c = false)
         (CircuitBreakerMetrics.calls (metrics b)) ->
  (failure_rate_threshold (cfg b) <= 1)%Q ->
  _state (_on_failure st now opened e d b) = OPEN.
Proof. apply on_failure_opens_all_failed. Qed.

(** *** Manual reset *)

(** X9.  [reset] closes the breaker from any state and zeroes both
    counters, so the next [call] reaches the wrapped callable even if the
    recovery time has not passed.  It keeps the rolling window and the
    failure time: if the window holds failures only, the first failure after
    the reset opens the breaker again. *)
Theorem reset_lets_calls_through b :
  let b' := reset b in
  _state b' = CLOSED
  /\ _failure_count b' = 0 /\ _success_count b' = 0
  /\ _last_failure_time b' = _last_failure_time b
  /\ CircuitBreakerMetrics.calls (metrics b')
     = CircuitBreakerMetrics.calls (metrics b)
  /\ (forall (ck : call_clock) (func : Args -> outcome Value) args,
        invoked_func (call ck func args b').1 = true)
  /\ (forall st now opened e d,
        (1 <= CircuitBreakerMetrics.window_size (metrics b))%nat ->
        Forall (fun c => CircuitBreakerMetrics.success c = false)
               (CircuitBreakerMetrics.calls (metrics b)) ->
        (failure_rate_threshold (cfg b) <= 1)%Q ->
        _state (_on_failure st now opened e d b') = OPEN).
Proof.
  cbv zeta. repeat match goal with |- _ /\ _ => split end; try reflexivity.
  - intros ck func args. apply BreakerFacts.call_invokes_unless_open.
    unfold state, state_refresh. simpl. discriminate.
  - intros st now opened e d HW Hall Hthr.
    apply on_failure_opens_all_failed; auto.
Qed.

(** *** The fallback on the failure path *)

Lemma call_failure_form b (ck : call_clock)
    (func : Args -> outcome Value) (args : Args) e :
  (state (at_check ck) b).1 <> OPEN ->
  func args = Raised e ->
  expected_exception (cfg b) e = true ->
  let b2 := _on_failure (at_record ck) (at_stamp ck) (at_opened ck) e
                        (at_end ck - at_start ck) (state (at_check ck) b).2 in
  let b3 := state_refresh (at_recheck ck) b2 in
  call ck func args b
  = match _state b3, fallback_function (cfg b) with
    | HALF_OPEN, Some fb =>
        ({| result := of_outcome (fb args); invoked_func := true;
            invoked_fallback := true |}, b3)
    | _, _ =>
        ({| result := Error e; invoked_func := true;
            invoked_fallback := false |}, b3)
    end.
Proof.
  intros Hs Hf He. unfold call, state in *. simpl in Hs |- *.
  rewrite Hf, (BreakerFacts.state_refresh_cfg (at_check ck) b), He.
  set (b1 := state_refresh (at_check ck) b) in *.
  set (b2 := _on_failure _ _ _ _ _ b1).
  assert (Hcfg : cfg (state_refresh (at_recheck ck) b2) = cfg b).
  { rewrite BreakerFacts.state_refresh_cfg. subst b2.
    pose proof (BreakerFacts.on_failure_state (at_record ck) (at_stamp ck)
                  (at_opened ck) e (at_end ck - at_start ck) b1)
      as (_ & H & _).
    cbv zeta in H. rewrite H. apply BreakerFacts.state_refresh_cfg. }
  rewrite Hcfg. destruct (_state b1); try congruence; reflexivity.
Qed.

(** X10.  When a call is let in and the callable raises an expected
    exception, the fallback runs exactly when one is configured, the failure
    has left the breaker OPEN, and the state query in the handler already
    finds the recovery time passed since the stamp just written (possible
    only with a [recovery_timeout] not above the time between the two clock
    readings).  The breaker is then left HALF_OPEN.  In every other case the
    exception propagates. *)
Theorem fallback_on_failure_iff b (ck : call_clock)
    (func : Args -> outcome Value) (args : Args) e :
  (state (at_check ck) b).1 <> OPEN ->
  func args = Raised e ->
  expected_exception (cfg b) e = true ->
  let b2 := _on_failure (at_record ck) (at_stamp ck) (at_opened ck) e
                        (at_end ck - at_start ck) (state (at_check ck) b).2 in
  let r := call ck func args b in
  (invoked_fallback r.1 = true
   <-> is_Some (fallback_function (cfg b))
       /\ _state b2 = OPEN
       /\ at_stamp ck <> 0
       /\ recovery_timeout (cfg b) <= at_recheck ck - at_stamp ck)
  /\ (invoked_fallback r.1 = true -> _state r.2 = HALF_OPEN)
  /\ (invoked_fallback r.1 = false -> result r.1 = Error e).
Proof.
  intros Hs Hf He b2 r. subst r.
  rewrite (call_failure_form b ck func args e Hs Hf He). cbv zeta. fold b2.
  pose proof (BreakerFacts.on_failure_state (at_record ck) (at_stamp ck)
                (at_opened ck) e (at_end ck - at_start ck)
                (state (at_check ck) b).2)
    as (Hl & Hcfg & Hst).
  cbv zeta in Hl, Hcfg, Hst. fold b2 in Hl, Hcfg, Hst.
  assert (Hcfg' : cfg b2 = cfg b).
  { rewrite Hcfg. apply BreakerFacts.state_refresh_cfg. }
  assert (Hhalf : _state (state_refresh (at_recheck ck) b2) = HALF_OPEN
                  <-> _state b2 = OPEN /\ at_stamp ck <> 0
                      /\ recovery_timeout (cfg b)
                         <= at_recheck ck - at_stamp ck).
  { unfold state_refresh, _should_attempt_reset. rewrite Hl, Hcfg'.
    destruct (_state b2) eqn:E2.
    - rewrite E2. split; [discriminate | intros (? & _); discriminate].
    - destruct (Z.eqb_spec (at_stamp ck) 0) as [Hz | Hz].
      + rewrite E2. split; [discriminate | intros (_ & ? & _); contradiction].
      + destruct (Z.leb_spec (recovery_timeout (cfg b))
                             (at_recheck ck - at_stamp ck)).
        * simpl. split; auto.
        * rewrite E2. split; [discriminate | intros (_ & _ & ?); lia].
    - exfalso.
      destruct Hst as [(_ & H & _) | [(_ & H & _) | (_ & H & _)]]; congruence. }
  destruct (_state (state_refresh (at_recheck ck) b2)) eqn:E3;
    destruct (fallback_function (cfg b)) as [fb |] eqn:Efb; simpl;
    (split; [| split]; try discriminate; try reflexivity; auto);
    split; try discriminate.
  all: try (intros (_ & Hrest); apply Hhalf in Hrest; discriminate).
  all: try (intros ([? ?] & _); discriminate).
  all: try (intros _; reflexivity).
  intros _. split; [eauto |]. apply Hhalf. reflexivity.
Qed.

(** *** Statistics *)

(** X11.  [CircuitBreakerMetrics.get_stats] never returns: it takes the
    metrics lock and, holding it, calls [get_failure_rate], which takes the
    same non-re-entrant lock.  [get_failure_rate] alone returns the rate.
    [CircuitBreaker.get_stats], which starts with the metrics' [get_stats],
    never returns either. *)
Theorem get_stats_never_returns :
  (forall m, Stats.get_stats false m = threading.Deadlock)
  /\ (forall m, Stats.get_failure_rate false m
                = threading.Returns (CircuitBreakerMetrics.get_failure_rate m))
  /\ (forall now b, Stats.breaker_get_stats now b = threading.Deadlock).
Proof. repeat split. Qed.

End WithCallable.

Import Examples.

Lemma unexpected_exception_passes_through_witness :
  (call (within_second 1000)
        (fun _ => Raised {| exn_type := "ValueError"; exn_msg := "bad row" |})
        tt (postgres_main None)).1
  = {| result := Error {| exn_type := "ValueError"; exn_msg := "bad row" |};
       invoked_func := true; invoked_fallback := false |}.
Proof.
  refine (proj1 (unexpected_exception_passes_through (postgres_main None)
                   (within_second 1000) _ tt _ _ _ _)).
  - discriminate.
  - reflexivity.
  - reflexivity.
Defined.

Lemma counters_fit_state_witness :
  _failure_count (run [failure_at 1000; Query 1060] (postgres_main None)) = 0.
Proof.
  refine (proj1 (counters_fit_state
                   (run [failure_at 1000; Query 1060] (postgres_main None)) _)).
  eexists _, _, [failure_at 1000; Query 1060]. reflexivity.
Defined.

Lemma listeners_know_the_state_witness :
  CircuitBreakerMetrics.circuit_opened_at
    (metrics (run [failure_at 1000] (postgres_main None))) = None
  <-> _state (run [failure_at 1000] (postgres_main None)) = CLOSED.
Proof.
  refine (proj2 (listeners_know_the_state
                   (run [failure_at 1000] (postgres_main None)) _)).
  eexists _, _, [failure_at 1000]. reflexivity.
Defined.

Lemma failure_opens_when_window_all_failed_witness :
  _state (_on_failure (at_second 1000) 1000 1000 boom 1 (postgres_main None))
  = OPEN.
Proof.
  refine (failure_opens_when_window_all_failed (at_second 1000) 1000 1000
            boom 1 (postgres_main None) _ _ _ _).
  - reflexivity.
  - simpl. lia.
  - constructor.
  - discriminate.
Defined.

Lemma fallback_on_failure_iff_witness :
  result (call (within_second 1061) query_raises tt probing).1 = Error boom.
Proof.
  refine (proj2 (proj2 (fallback_on_failure_iff probing (within_second 1061)
                          query_raises tt boom _ _ _)) _).
  - discriminate.
  - reflexivity.
  - reflexivity.
  - reflexivity.
Defined.

End BreakerMore.

(* ===================================================================== *)
(** * Properties of the registry and of the decorator *)
(* ===================================================================== *)

Module RegistryFacts.

Import CircuitBreaker.

Section WithCallable.

Context {Args Value : Type}.

Local Abbreviation breaker := (t Args Value).

Implicit Types (b : breaker) (h : gmap nat breaker) (reg : gmap string nat).

(** X12.  Registering a breaker makes [get] find that very object under the
    breaker's name, replacing whatever was registered under the name before;
    every other name still gives what it gave, and a name never registered
    gives nothing. *)
Theorem register_then_get (r : nat) b h reg :
  h !! r = Some b ->
  CircuitBreakerRegistry.get (name (cfg b))
    (CircuitBreakerRegistry.register r h reg) = Some r
  /\ (forall n, n <> name (cfg b) ->
        CircuitBreakerRegistry.get n (CircuitBreakerRegistry.register r h reg)
        = CircuitBreakerRegistry.get n reg)
  /\ (forall n, CircuitBreakerRegistry.get n (∅ : gmap string nat) = None).
Proof.
  intros Hb. unfold CircuitBreakerRegistry.get, CircuitBreakerRegistry.register.
  rewrite Hb. split; [apply lookup_insert_eq |]. split.
  - intros n Hn. apply lookup_insert_ne. congruence.
  - intros n. apply lookup_empty.
Qed.

Lemma reset_each_lookup (l : list nat) h (r : nat) b :
  h !! r = Some b ->
  exists b',
    foldl (fun h r => alter reset r h) h l !! r = Some b'
    /\ cfg b' = cfg b
    /\ _last_failure_time b' = _last_failure_time b
    /\ CircuitBreakerMetrics.calls (metrics b')
       = CircuitBreakerMetrics.calls (metrics b)
    /\ (r ∈ l -> _state b' = CLOSED /\ _failure_count b' = 0
                 /\ _success_count b' = 0)
    /\ (r ∉ l -> b' = b).
Proof.
  intros Hb. induction l as [| x l IH] using rev_ind.
  - exists b. simpl. split; [exact Hb |]. split; [reflexivity |].
    split; [reflexivity |]. split; [reflexivity |]. split; [| reflexivity].
    intros H. inversion H.
  - destruct IH as (b' & Hl & Hc & Hf & Hm & Hin & Hout).
    rewrite foldl_app. simpl.
    destruct (decide (x = r)) as [-> | Hne].
    + exists (reset b'). rewrite lookup_alter_eq, Hl. simpl.
      split; [reflexivity |]. split; [exact Hc |]. split; [exact Hf |].
      split; [exact Hm |]. split.
      * intros _. repeat split.
      * intros H. exfalso. apply H, elem_of_app. right. constructor.
    + exists b'. rewrite lookup_alter_ne by exact Hne.
      split; [exact Hl |]. split; [exact Hc |]. split; [exact Hf |].
      split; [exact Hm |]. split.
      * intros H. apply Hin. apply elem_of_app in H as [H | H]; [exact H |].
        apply list_elem_of_singleton in H. congruence.
      * intros H. apply Hout. intros H'. apply H, elem_of_app. auto.
Qed.

Lemma reset_each_absent (l : list nat) h (r : nat) :
  h !! r = None -> foldl (fun h r => alter reset r h) h l !! r = None.
Proof.
  intros Hb. induction l as [| x l IH] using rev_ind; [exact Hb |].
  rewrite foldl_app. simpl.
  destruct (decide (x = r)) as [-> | Hne].
  - rewrite lookup_alter_eq, IH. reflexivity.
  - rewrite lookup_alter_ne by exact Hne. exact IH.
Qed.

Lemma elem_of_values reg (r : nat) :
  r ∈ CircuitBreakerRegistry.values reg <-> exists n, reg !! n = Some r.
Proof.
  unfold CircuitBreakerRegistry.values. rewrite list_elem_of_fmap. split.
  - intros ([n r'] & -> & H). exists n. apply elem_of_map_to_list in H. exact H.
  - intros (n & H). exists (n, r). split; [reflexivity |].
    apply elem_of_map_to_list. exact H.
Qed.

(** X13.  [reset_all] closes every registered breaker: each one ends CLOSED
    with both counters at 0, keeping its configuration, failure time and
    rolling window; an object that is not registered is left exactly as it
    was, and the registry itself is not changed. *)
Theorem reset_all_closes_registered h reg :
  (forall n (r : nat) b,
     reg !! n = Some r -> h !! r = Some b ->
     exists b',
       CircuitBreakerRegistry.reset_all h reg !! r = Some b'
       /\ _state b' = CLOSED
       /\ _failure_count b' = 0 /\ _success_count b' = 0
       /\ cfg b' = cfg b
       /\ _last_failure_time b' = _last_failure_time b
       /\ CircuitBreakerMetrics.calls (metrics b')
          = CircuitBreakerMetrics.calls (metrics b))
  /\ (forall r : nat,
        (forall n, reg !! n <> Some r) ->
        CircuitBreakerRegistry.reset_all h reg !! r = h !! r).
Proof.
  split.
  - intros n r b Hn Hb.
    destruct (reset_each_lookup (CircuitBreakerRegistry.values reg) h r b Hb)
      as (b' & Hl & Hc & Hf & Hm & Hin & _).
    destruct Hin as (H1 & H2 & H3); [apply elem_of_values; eauto |].
    exists b'. repeat split; assumption.
  - intros r Hr. unfold CircuitBreakerRegistry.reset_all.
    destruct (h !! r) as [b |] eqn:Hb.
    + destruct (reset_each_lookup (CircuitBreakerRegistry.values reg) h r b Hb)
        as (b' & Hl & _ & _ & _ & _ & Hout).
      rewrite Hl, Hout; [reflexivity |].
      intros (n & Hn)%elem_of_values. exact (Hr n Hn).
    + apply reset_each_absent, Hb.
Qed.

(** X14.  [get_all_stats] returns the empty list for an empty registry and
    never returns for any other: the first registered breaker's [get_stats]
    blocks. *)
Theorem get_all_stats_blocks (nows : list Z) h reg :
  (forall n (r : nat), reg !! n = Some r -> is_Some (h !! r)) ->
  CircuitBreakerRegistry.get_all_stats nows h reg
  = if decide (reg = ∅) then threading.Returns ([], h)
    else threading.Deadlock.
Proof.
  intros Hvalid. unfold CircuitBreakerRegistry.get_all_stats.
  destruct (decide (reg = ∅)) as [-> | Hne].
  - unfold CircuitBreakerRegistry.values. rewrite map_to_list_empty.
    reflexivity.
  - destruct (CircuitBreakerRegistry.values reg) as [| r rs] eqn:E.
    + exfalso. apply Hne. apply map_to_list_empty_iff.
      unfold CircuitBreakerRegistry.values in E.
      destruct (map_to_list reg); [reflexivity | discriminate].
    + assert (Hr : r ∈ CircuitBreakerRegistry.values reg)
        by (rewrite E; constructor).
      apply elem_of_values in Hr as (n & Hn).
      destruct (Hvalid n r Hn) as [b Hb].
      simpl. rewrite Hb. reflexivity.
Qed.

Import CircuitBreakerDecorator.

Lemma call_known (q : string) (d : CircuitBreakerDecorator.t Args Value)
    h (r : nat) :
  _breakers d !! breaker_name d q = Some r -> __call__ q d h = (r, d, h).
Proof. unfold __call__. intros ->. reflexivity. Qed.

Lemma call_new (q : string) (d : CircuitBreakerDecorator.t Args Value) h :
  _breakers d !! breaker_name d q = None ->
  __call__ q d h
  = (fresh (dom h),
     with_breakers (<[breaker_name d q := fresh (dom h)]> (_breakers d)) d,
     <[fresh (dom h) := new_breaker d (breaker_name d q)]> h).
Proof. unfold __call__. intros ->. reflexivity. Qed.

(** X15.  The decorator keeps one breaker per name: applying it to a second
    function that resolves to the same breaker name (always the case when the
    decorator was given a non-empty name) hands out the same object and
    creates nothing; applying it under a new name creates a fresh CLOSED
    object and leaves every existing object as it was. *)
Theorem decorator_shares_by_name (q1 q2 : string)
    (d : CircuitBreakerDecorator.t Args Value) h :
  let '(r1, d1, h1) := __call__ q1 d h in
  (breaker_name d q1 = breaker_name d q2 ->
   __call__ q2 d1 h1 = (r1, d1, h1))
  /\ (forall a s, CircuitBreakerDecorator.name d = Some (String a s) ->
        __call__ q2 d1 h1 = (r1, d1, h1))
  /\ (_breakers d !! breaker_name d q1 = None ->
      h1 !! r1 = Some (new_breaker d (breaker_name d q1))
      /\ h !! r1 = None
      /\ forall r, r <> r1 -> h1 !! r = h !! r).
Proof.
  destruct (_breakers d !! breaker_name d q1) as [r |] eqn:E1.
  - rewrite (call_known q1 d h r E1).
    assert (Hsame : breaker_name d q1 = breaker_name d q2 ->
                    __call__ q2 d h = (r, d, h)).
    { intros Hq. apply call_known. rewrite <- Hq. exact E1. }
    split; [exact Hsame |]. split; [| discriminate].
    intros a s Hn. apply Hsame. unfold breaker_name. rewrite Hn. reflexivity.
  - rewrite (call_new q1 d h E1).
    set (d1 := with_breakers _ d). set (h1 := <[_ := _]> h).
    assert (Hsame : breaker_name d q1 = breaker_name d q2 ->
                    __call__ q2 d1 h1 = (fresh (dom h), d1, h1)).
    { intros Hq. apply call_known.
      change (breaker_name d1 q2) with (breaker_name d q2).
      rewrite <- Hq. subst d1. simpl. apply lookup_insert_eq. }
    split; [exact Hsame |]. split.
    + intros a s Hn. apply Hsame. unfold breaker_name. rewrite Hn. reflexivity.
    + intros _. subst h1. split; [apply lookup_insert_eq |]. split.
      * apply not_elem_of_dom, is_fresh.
      * intros r Hr. apply lookup_insert_ne. congruence.
Qed.

(** X16.  A decorated function trips its breaker with its very first
    failing call, whatever [failure_threshold] the decorator was given: the
    decorator cannot set [failure_rate_threshold], so the default of one half
    meets a window that holds that one failure.  The wrapped function has
    run, and its breaker is no longer CLOSED. *)
Theorem decorated_first_failure_opens (q : string)
    (d : CircuitBreakerDecorator.t Args Value) h
    (func : Args -> outcome Value) (ck : call_clock) (args : Args) e :
  _breakers d !! breaker_name d q = None ->
  func args = Raised e ->
  CircuitBreakerDecorator.expected_exception d e = true ->
  let '(r, _, h1) := __call__ q d h in
  exists rep b',
    wrapper r func ck args h1 = (Some rep, <[r := b']> h1)
    /\ invoked_func rep = true
    /\ _state b' <> CLOSED
    /\ state_changes b' <> [].
Proof.
  intros E Hf He. rewrite (call_new q d h E).
  unfold wrapper. rewrite lookup_insert_eq.
  set (b := new_breaker d (breaker_name d q)).
  assert (Hs : (state (at_check ck) b).1 <> OPEN) by discriminate.
  pose proof (BreakerMore.call_failure_form b ck func args e Hs Hf He) as Hc.
  cbv zeta in Hc.
  set (b2 := _on_failure _ _ _ _ _ (state (at_check ck) b).2) in Hc.
  assert (Ho : _state b2 = OPEN).
  { apply BreakerMore.on_failure_opens_all_failed;
      [reflexivity | simpl; lia | constructor | discriminate]. }
  assert (Hch : state_changes b2 <> []).
  { pose proof (BreakerFacts.on_failure_state (at_record ck) (at_stamp ck)
                  (at_opened ck) e (at_end ck - at_start ck)
                  (state (at_check ck) b).2) as (_ & _ & H).
    cbv zeta in H. fold b2 in H.
    destruct H as [(_ & _ & _ & _ & H) | [(H & _) | (_ & H & _)]].
    - rewrite H. intros Hn. apply app_eq_nil in Hn as [_ Hn]. discriminate.
    - discriminate.
    - congruence. }
  assert (H3 : _state (state_refresh (at_recheck ck) b2) <> CLOSED
               /\ state_changes (state_refresh (at_recheck ck) b2) <> []).
  { destruct (BreakerFacts.state_refresh_cases (at_recheck ck) b2)
      as [-> | (_ & _ & ->)].
    - split; [congruence | exact Hch].
    - split; [discriminate |]. simpl.
      intros Hn. apply app_eq_nil in Hn as [_ Hn]. discriminate. }
  destruct H3 as [H3 H4]. rewrite Hc.
  destruct (_state (state_refresh (at_recheck ck) b2)) eqn:E3;
    try (exfalso; apply H3; reflexivity);
    destruct (CircuitBreaker.fallback_function (cfg b));
    eexists _, _; (split; [reflexivity |]);
    repeat split; simpl; assumption || congruence.
Qed.

End WithCallable.

Import Examples.

Lemma register_then_get_witness :
  CircuitBreakerRegistry.get "postgres_main"
    (CircuitBreakerRegistry.register 7 {[7%nat := postgres_main None]} ∅)
  = Some 7%nat.
Proof.
  refine (proj1 (register_then_get 7 (postgres_main None)
                   {[7%nat := postgres_main None]} ∅ _)).
  apply lookup_singleton_eq.
Defined.

Lemma get_all_stats_blocks_witness :
  CircuitBreakerRegistry.get_all_stats [1000]
    {[7%nat := postgres_main None]} {["postgres_main"%string := 7%nat]}
  = threading.Deadlock.
Proof.
  rewrite (get_all_stats_blocks [1000] {[7%nat := postgres_main None]}
             {["postgres_main"%string := 7%nat]}).
  - destruct (decide _) as [H | _]; [| reflexivity].
    exfalso. apply (f_equal (fun m => m !! "postgres_main"%string)) in H.
    rewrite lookup_singleton_eq, lookup_empty in H. discriminate.
  - intros n r H. apply lookup_singleton_Some in H as [_ <-].
    rewrite lookup_singleton_eq. eauto.
Defined.

Lemma decorated_first_failure_opens_witness :
  let '(r, _, h1) :=
    CircuitBreakerDecorator.__call__ "app.query_database"
      MoreExamples.database_query MoreExamples.no_objects in
  exists rep b',
    CircuitBreakerDecorator.wrapper r query_raises (within_second 1000) tt h1
    = (Some rep, <[r := b']> h1)
    /\ invoked_func rep = true /\ _state b' <> CLOSED
    /\ state_changes b' <> [].
Proof.
  exact (decorated_first_failure_opens "app.query_database"
           MoreExamples.database_query MoreExamples.no_objects
           query_raises (within_second 1000) tt boom
           (lookup_empty _) eq_refl eq_refl).
Defined.

End RegistryFacts.

(* ===================================================================== *)
(** * Further properties of the batching consumer *)
(* ===================================================================== *)

Module ConsumerMore.

Import OptimizedKafkaConsumer ConsumerViews.

Section WithCollaborators.

Variable w : collaborators.

Implicit Types (c : t) (m : Message) (batch : list Message) (err : Exn).

(** *** The flush time *)

Lemma send_to_dlq_time m err c :
  last_batch_time (_send_to_dlq w m err c) = last_batch_time c.
Proof.
  unfold _send_to_dlq. destruct (dlq_producer_send w _ _ _ _); reflexivity.
Qed.

Lemma handle_message_error_time err c m :
  last_batch_time (handle_message_error w err c m) = last_batch_time c.
Proof.
  unfold handle_message_error.
  destruct (error_handler w (trace c) err m); [reflexivity |].
  destruct (_ && _); [rewrite send_to_dlq_time |]; reflexivity.
Qed.

Lemma handle_batch_error_time batch err c :
  last_batch_time (_handle_batch_error w batch err c) = last_batch_time c.
Proof.
  revert c. induction batch as [| m batch IH]; intros c; [reflexivity |].
  change (_handle_batch_error w (m :: batch) err c)
    with (_handle_batch_error w batch err (handle_message_error w err c m)).
  rewrite IH. apply handle_message_error_time.
Qed.

Lemma process_batch_time batch c :
  last_batch_time (_process_batch w batch c) = last_batch_time c.
Proof.
  unfold _process_batch, _commit_batch_offsets.
  destruct (message_handler w (trace c) batch).
  - rewrite handle_batch_error_time. reflexivity.
  - destruct (consumer_commit w _ _); simpl; try reflexivity.
    rewrite handle_batch_error_time. reflexivity.
Qed.

(** X17.  The time-based flush: when at least [batch_timeout_ms] have
    passed since the last flush and the open buffer is not empty,
    [_check_batch_timeout] hands the whole buffer to the handler as one
    batch, however small, empties the buffer and restarts the timer at the
    current clock reading; otherwise it does nothing at all. *)
Theorem time_based_flush c :
  let elapsed := (clock w (trace c) - last_batch_time c) * 1000 in
  let c' := _check_batch_timeout w c in
  (batch_timeout_ms (config c) <= elapsed -> batch_queue c <> [] ->
   batch_queue c' = []
   /\ handler_batches (trace c') = handler_batches (trace c) ++ [batch_queue c]
   /\ last_batch_time c' = clock w (trace c))
  /\ (elapsed < batch_timeout_ms (config c) \/ batch_queue c = [] -> c' = c).
Proof.
  cbv zeta. unfold _check_batch_timeout. split.
  - intros Ht Hq.
    destruct (Z.leb_spec (batch_timeout_ms (config c))
                ((clock w (trace c) - last_batch_time c) * 1000)); [| lia].
    rewrite bool_decide_eq_true_2 by exact Hq. simpl.
    pose proof (ConsumerFacts.flush_batch_spec w c) as (_ & _ & _ & _ & H1 & H2).
    cbv zeta in H1, H2. split; [exact H1 |]. split.
    + rewrite H2. destruct (batch_queue c); [congruence | reflexivity].
    + unfold _flush_batch. destruct (batch_queue c) eqn:E; [congruence |].
      rewrite process_batch_time. reflexivity.
  - intros [Ht | Hq].
    + destruct (Z.leb_spec (batch_timeout_ms (config c))
                  ((clock w (trace c) - last_batch_time c) * 1000)); [lia |].
      reflexivity.
    + rewrite bool_decide_eq_false_2 by (intros H; exact (H Hq)).
      rewrite andb_false_r. reflexivity.
Qed.

(** *** What each entry point does to the buffer and to the batches *)

Lemma flush_view c :
  handler_batches (trace (_flush_batch w c))
  = handler_batches (trace c)
    ++ match batch_queue c with [] => [] | q => [q] end
  /\ batch_queue (_flush_batch w c) = [].
Proof.
  pose proof (ConsumerFacts.flush_batch_spec w c) as (_ & _ & _ & _ & H1 & H2).
  auto.
Qed.

Lemma add_view (r : ConsumerRecord) c :
  let q := batch_queue c ++ [message_of r] in
  if batch_size (config c) <=? Z.of_nat (length q)
  then handler_batches (trace (_add_to_batch w r c))
       = handler_batches (trace c) ++ [q]
       /\ batch_queue (_add_to_batch w r c) = []
  else handler_batches (trace (_add_to_batch w r c))
       = handler_batches (trace c)
       /\ batch_queue (_add_to_batch w r c) = q.
Proof.
  cbv zeta. unfold _add_to_batch. simpl.
  destruct (_ <=? _); [| auto].
  destruct (flush_view (with_batch (batch_queue c ++ [message_of r])
                          (last_batch_time c) c)) as [H1 H2].
  simpl in H1. rewrite H1, H2. split; [| reflexivity].
  destruct (batch_queue c ++ [message_of r]) eqn:E; [| reflexivity].
  apply app_eq_nil in E as [_ E]. discriminate.
Qed.

Lemma taken_in_flush c : taken_in (_flush_batch w c) = taken_in c.
Proof.
  unfold taken_in. destruct (flush_view c) as [-> ->].
  rewrite concat_app, app_nil_r.
  destruct (batch_queue c); simpl; rewrite ?app_nil_r; reflexivity.
Qed.

Lemma taken_in_add (r : ConsumerRecord) c :
  taken_in (_add_to_batch w r c) = taken_in c ++ [message_of r].
Proof.
  unfold taken_in. pose proof (add_view r c) as H. cbv zeta in H.
  destruct (_ <=? _); destruct H as [-> ->].
  - rewrite concat_app. simpl. rewrite !app_nil_r. apply app_assoc.
  - apply app_assoc.
Qed.

Lemma taken_in_check c : taken_in (_check_batch_timeout w c) = taken_in c.
Proof.
  unfold _check_batch_timeout.
  destruct (_ && _); [apply taken_in_flush | reflexivity].
Qed.

Lemma taken_in_stop c :
  taken_in (left_by (stop w false c)) = taken_in c.
Proof.
  unfold taken_in at 1.
  destruct (ConsumerFacts.stop_spec w c) as (_ & -> & ->).
  rewrite app_nil_r.
  pose proof (taken_in_flush (with_running false c)) as H.
  unfold taken_in in H.
  destruct (flush_view (with_running false c)) as [_ Hq].
  rewrite Hq, app_nil_r in H. exact H.
Qed.

Lemma taken_in_add_all (rs : list ConsumerRecord) c :
  taken_in (foldl (fun c r => _add_to_batch w r c) c rs)
  = taken_in c ++ (message_of <$> rs).
Proof.
  revert c. induction rs as [| r rs IH]; intros c; simpl.
  - rewrite app_nil_r. reflexivity.
  - rewrite IH, taken_in_add, <- app_assoc. reflexivity.
Qed.

Lemma taken_in_add_parts
    (parts : list (TopicPartition * list ConsumerRecord)) c :
  taken_in (foldl (fun c p => foldl (fun c r => _add_to_batch w r c) c p.2)
                  c parts)
  = taken_in c ++ (message_of <$> concat (parts.*2)).
Proof.
  revert c. induction parts as [| p parts IH]; intros c; simpl.
  - rewrite app_nil_r. reflexivity.
  - rewrite IH, taken_in_add_all, fmap_app, <- app_assoc. reflexivity.
Qed.

Lemma taken_in_emit ev c :
  (forall b r, ev <> HandlerCalled b r) -> taken_in (emit ev c) = taken_in c.
Proof.
  intros H. unfold taken_in. simpl. rewrite ConsumerFacts.handler_batches_app.
  destruct ev; simpl; rewrite ?app_nil_r; try reflexivity.
  exfalso. eapply H. reflexivity.
Qed.

Lemma taken_in_step o c :
  taken_in (step w o c)
  = taken_in c
    ++ match o with
       | AddToBatch r => [message_of r]
       | ConsumeOnce =>
           message_of <$> polled_records (consumer_poll w (trace c))
       | _ => []
       end.
Proof.
  destruct o as [r | | | |]; simpl; rewrite ?app_nil_r.
  - apply taken_in_add.
  - apply taken_in_check.
  - apply taken_in_flush.
  - unfold consume_once.
    destruct (consumer_poll w (trace c)) as [[| p parts] | e |];
      [simpl | simpl | simpl |].
    + rewrite taken_in_check, app_nil_r. apply taken_in_emit. discriminate.
    + change (foldl _ (foldl _ (emit Polled c) p.2) parts)
        with (foldl (fun c p => foldl (fun c r => _add_to_batch w r c) c p.2)
                    (emit Polled c) (p :: parts)).
      rewrite taken_in_add_parts, taken_in_emit by discriminate. reflexivity.
    + rewrite app_nil_r, !taken_in_emit by discriminate. reflexivity.
    + rewrite taken_in_stop.
      change (message_of <$> polled_records Interrupted) with (@nil Message).
      rewrite app_nil_r. apply taken_in_emit. discriminate.
  - apply taken_in_stop.
Qed.

(** X18.  No record is lost, duplicated or reordered on its way to the
    handler: after any entry point, the batches handed to the handler so far,
    laid end to end and followed by the open buffer, are the earlier ones
    followed by exactly the records this entry point took in (the record
    added, or the polled records partition by partition).  So after any
    sequence of adds, timeout checks, flushes and stops on a new consumer
    they are exactly the records added, in order. *)
Theorem no_record_lost :
  (forall o c,
     taken_in (step w o c)
     = taken_in c
       ++ match o with
          | AddToBatch r => [message_of r]
          | ConsumeOnce =>
              message_of <$> polled_records (consumer_poll w (trace c))
          | _ => []
          end)
  /\ (forall ops cf,
        forallb (fun o => negb (is_consume o)) ops = true ->
        taken_in (run w ops (__init__ w cf))
        = message_of <$> added_records ops).
Proof.
  split; [apply taken_in_step |].
  intros ops cf. induction ops as [| o ops IH] using rev_ind.
  - reflexivity.
  - rewrite forallb_app. intros [Hops Ho]%andb_prop.
    rewrite ConsumerFacts.consumer_run_snoc, taken_in_step, (IH Hops).
    unfold added_records. rewrite omap_app, fmap_app.
    destruct o; simpl in *; rewrite ?app_nil_r; try reflexivity.
    discriminate.
Qed.


(** *** Stopping *)





(** *** Invariants of every entry point *)

Section Invariant.

Variable P : t -> Prop.

Hypothesis P_add : forall r c, P c -> P (_add_to_batch w r c).
Hypothesis P_flush : forall c, P c -> P (_flush_batch w c).
Hypothesis P_emit : forall ev c, housekeeping ev -> P c -> P (emit ev c).
Hypothesis P_running : forall r c, P c -> P (with_running r c).

Lemma P_join (ths : list string) c :
  P c -> P (foldl (fun c th => emit (ThreadJoined th) c) c ths).
Proof.
  revert c. induction ths as [| th ths IH]; intros c H; simpl; [exact H |].
  apply IH, P_emit; [exact I | exact H].
Qed.

Lemma P_stop c : P c -> P (left_by (stop w false c)).
Proof.
  intros H. rewrite ConsumerFacts.stop_unheld. cbv zeta.
  assert (H2 : P (emit ConsumerClosed
                    (foldl (fun c th => emit (ThreadJoined th) c)
                       (_flush_batch w (with_running false c))
                       (processing_threads
                          (_flush_batch w (with_running false c)))))).
  { apply P_emit; [exact I |]. apply P_join, P_flush, P_running, H. }
  destruct (dlq_producer _); [apply P_emit; [exact I | exact H2] | exact H2].
Qed.

Lemma P_check c : P c -> P (_check_batch_timeout w c).
Proof.
  intros H. unfold _check_batch_timeout.
  destruct (_ && _); [apply P_flush, H | exact H].
Qed.

Lemma P_add_all (rs : list ConsumerRecord) c :
  P c -> P (foldl (fun c r => _add_to_batch w r c) c rs).
Proof.
  revert c. induction rs as [| r rs IH]; intros c H; simpl; [exact H |].
  apply IH, P_add, H.
Qed.

Lemma P_consume c : P c -> P (consume_once w c).
Proof.
  intros H. unfold consume_once.
  assert (Hp : P (emit Polled c)) by (apply P_emit; [exact I | exact H]).
  destruct (consumer_poll w (trace c)) as [[| p parts] | e |].
  - apply P_check, Hp.
  - generalize (p :: parts). intros l. revert Hp. generalize (emit Polled c).
    induction l as [| p' l IH]; intros c0 H0; simpl; [exact H0 |].
    apply IH, P_add_all, H0.
  - apply P_emit; [exact I | exact Hp].
  - apply P_stop, Hp.
Qed.

Lemma P_step o c : P c -> P (step w o c).
Proof.
  intros H. destruct o; simpl.
  - apply P_add, H.
  - apply P_check, H.
  - apply P_flush, H.
  - apply P_consume, H.
  - apply P_stop, H.
Qed.

Lemma P_run ops c : P c -> P (run w ops c).
Proof.
  intros H. induction ops as [| o ops IH] using rev_ind; [exact H |].
  rewrite ConsumerFacts.consumer_run_snoc. apply P_step, IH.
Qed.

End Invariant.

Lemma housekeeping_views ev :
  housekeeping ev ->
  handler_batches [ev] = [] /\ commits [ev] = [] /\ dlq_sends [ev] = []
  /\ handled_ok [ev] = 0%nat.
Proof. destruct ev; simpl; intros H; try contradiction; auto. Qed.

Lemma handled_ok_app l k :
  handled_ok (l ++ k) = (handled_ok l + handled_ok k)%nat.
Proof. unfold handled_ok. rewrite omap_app, length_app. reflexivity. Qed.

Lemma handled_ok_quiet l : handler_batches l = [] -> handled_ok l = 0%nat.
Proof.
  induction l as [| ev l IH]; [reflexivity |].
  destruct ev; simpl; try exact IH. discriminate.
Qed.

(** *** One commit per handled batch *)

Lemma balanced_process batch c :
  balanced c -> balanced (_process_batch w batch c).
Proof.
  unfold balanced. intros H.
  pose proof (ConsumerFacts.process_batch_spec w batch c)
    as (_ & rest & Ht & Hh & Hc).
  cbv zeta in Ht. rewrite Ht.
  rewrite ConsumerFacts.commits_app, handled_ok_app, length_app, H.
  f_equal.
  destruct (message_handler w (trace c) batch) as [e |].
  - change (HandlerCalled batch (Some e) :: rest)
      with ([HandlerCalled batch (Some e)] ++ rest).
    rewrite ConsumerFacts.commits_app, handled_ok_app, length_app, Hc,
      (handled_ok_quiet rest Hh).
    reflexivity.
  - change (HandlerCalled batch None :: CommitCalled (batch_offsets batch)
              :: rest)
      with ([HandlerCalled batch None; CommitCalled (batch_offsets batch)]
              ++ rest).
    rewrite ConsumerFacts.commits_app, handled_ok_app, length_app, Hc,
      (handled_ok_quiet rest Hh).
    reflexivity.
Qed.

Lemma balanced_flush c : balanced c -> balanced (_flush_batch w c).
Proof.
  intros H. unfold _flush_batch.
  destruct (batch_queue c); [exact H |]. apply balanced_process. exact H.
Qed.

Lemma balanced_add r c : balanced c -> balanced (_add_to_batch w r c).
Proof.
  intros H. unfold _add_to_batch.
  destruct (_ <=? _); [apply balanced_flush |]; exact H.
Qed.

Lemma balanced_emit ev c : housekeeping ev -> balanced c -> balanced (emit ev c).
Proof.
  unfold balanced. intros Hev H. simpl.
  destruct (housekeeping_views ev Hev) as (_ & Hc & _ & Hk).
  rewrite ConsumerFacts.commits_app, handled_ok_app, length_app, Hc, Hk, H.
  reflexivity.
Qed.

(** X20.  Offsets are committed once per batch the handler accepted and
    never otherwise: whatever a new consumer is asked to do (adds, timeout
    checks, flushes, poll passes, stops), the number of commit calls issued
    equals the number of handler invocations that returned normally, and if
    none returned there is no commit at all. *)
Theorem one_commit_per_handled_batch ops (cf : ConsumerConfig) :
  let tr := trace (run w ops (__init__ w cf)) in
  length (commits tr) = handled_ok tr
  /\ (handled_ok tr = 0%nat -> commits tr = []).
Proof.
  cbv zeta.
  assert (H : balanced (run w ops (__init__ w cf))).
  { apply (P_run balanced balanced_add balanced_flush balanced_emit
                   (fun r c H => H)).
    reflexivity. }
  split; [exact H |]. intros H0. unfold balanced in H. rewrite H0 in H.
  destruct (commits _); [reflexivity | discriminate].
Qed.

(** *** Retry counts *)

Lemma never_retried_error err batch c :
  Forall (fun m => retry_count m = None) batch ->
  Forall first_failure_send (dlq_sends (trace c)) ->
  Forall first_failure_send
         (dlq_sends (trace (_handle_batch_error w batch err c))).
Proof.
  intros Hb. revert c. induction Hb as [| m batch Hm _ IH]; intros c H.
  - exact H.
  - change (_handle_batch_error w (m :: batch) err c)
      with (_handle_batch_error w batch err (handle_message_error w err c m)).
    apply IH.
    pose proof (ConsumerFacts.handle_message_error_spec w err c m)
      as (_ & evs & Ht & _ & _ & Hs).
    cbv zeta in Ht, Hs. rewrite Ht, ConsumerFacts.dlq_sends_app.
    apply Forall_app. split; [exact H |]. simpl. rewrite Hs.
    destruct (error_handler w (trace c) err m); [constructor |].
    destruct (_ && _); constructor; [| constructor].
    unfold first_failure_send. simpl. rewrite Hm. split; reflexivity.
Qed.

Lemma never_retried_process batch c :
  Forall (fun m => retry_count m = None) batch ->
  Forall first_failure_send (dlq_sends (trace c)) ->
  Forall first_failure_send (dlq_sends (trace (_process_batch w batch c))).
Proof.
  intros Hb H. unfold _process_batch.
  destruct (message_handler w (trace c) batch) as [e |].
  - apply never_retried_error; [exact Hb |]. simpl.
    rewrite !ConsumerFacts.dlq_sends_app. simpl. rewrite !app_nil_r. exact H.
  - pose proof (ConsumerFacts.commit_batch_offsets_spec w batch
                  (emit (HandlerCalled batch None) c))
      as (_ & logs & Ht & _ & _ & Hs).
    cbv zeta in Ht.
    assert (H2 : Forall first_failure_send
                   (dlq_sends (trace (_commit_batch_offsets w batch
                                        (emit (HandlerCalled batch None) c)).2))).
    { rewrite Ht. simpl. rewrite !ConsumerFacts.dlq_sends_app. simpl.
      rewrite Hs, !app_nil_r. exact H. }
    destruct (_commit_batch_offsets w batch _) as [[e |] c2]; simpl in *.
    + apply never_retried_error; [exact Hb |]. simpl.
      rewrite ConsumerFacts.dlq_sends_app. simpl. rewrite app_nil_r. exact H2.
    + exact H2.
Qed.

Lemma never_retried_flush c : never_retried c -> never_retried (_flush_batch w c).
Proof.
  intros [Hq Hs]. split.
  - destruct (flush_view c) as [_ ->]. constructor.
  - unfold _flush_batch. destruct (batch_queue c) eqn:E; [exact Hs |].
    apply never_retried_process; [exact Hq | exact Hs].
Qed.

Lemma never_retried_add r c : never_retried c -> never_retried (_add_to_batch w r c).
Proof.
  intros [Hq Hs].
  assert (H : never_retried (with_batch (batch_queue c ++ [message_of r])
                               (last_batch_time c) c)).
  { split; [| exact Hs]. simpl. apply Forall_app. split; [exact Hq |].
    constructor; [reflexivity | constructor]. }
  unfold _add_to_batch. destruct (_ <=? _); [apply never_retried_flush |];
    exact H.
Qed.

Lemma never_retried_emit ev c :
  housekeeping ev -> never_retried c -> never_retried (emit ev c).
Proof.
  intros Hev [Hq Hs]. split; [exact Hq |]. simpl.
  destruct (housekeeping_views ev Hev) as (_ & _ & Hd & _).
  rewrite ConsumerFacts.dlq_sends_app, Hd, app_nil_r. exact Hs.
Qed.

(** X21.  The retry count never grows: the message dictionaries the
    consumer builds from records have no [retry_count] key, so every message
    it dead-letters, whatever it is asked to do, carries [retry_count] 1. *)
Theorem dead_letters_carry_retry_one ops (cf : ConsumerConfig) :
  Forall (fun s : string * DlqMessage * option string =>
            dlq_retry_count s.1.2 = 1
            /\ retry_count (original_message s.1.2) = None)
         (dlq_sends (trace (run w ops (__init__ w cf)))).
Proof.
  assert (H : never_retried (run w ops (__init__ w cf))).
  { apply (P_run never_retried never_retried_add never_retried_flush
                   never_retried_emit (fun r c H => H)).
    split; constructor. }
  exact (proj2 H).
Qed.

(** *** Degenerate batch sizes *)

Lemma one_by_one_flush c : one_by_one c -> one_by_one (_flush_batch w c).
Proof.
  intros (Hb & Hq & Hh). unfold _flush_batch. rewrite Hq.
  split; [exact Hb | split; [exact Hq | exact Hh]].
Qed.

Lemma one_by_one_add r c : one_by_one c -> one_by_one (_add_to_batch w r c).
Proof.
  intros (Hb & Hq & Hh).
  pose proof (add_view r c) as H. cbv zeta in H.
  rewrite Hq in H.
  change (Z.of_nat (length ([] ++ [message_of r]))) with 1 in H.
  unfold one_by_one. rewrite ConsumerFacts.add_to_batch_config.
  destruct (Z.leb_spec (batch_size (config c)) 1) as [_ | ?]; [| lia].
  destruct H as [-> ->]. split; [exact Hb |]. split; [reflexivity |].
  apply Forall_app. split; [exact Hh | constructor; [reflexivity | constructor]].
Qed.

Lemma one_by_one_emit ev c :
  housekeeping ev -> one_by_one c -> one_by_one (emit ev c).
Proof.
  intros Hev (Hb & Hq & Hh). split; [exact Hb |]. split; [exact Hq |]. simpl.
  destruct (housekeeping_views ev Hev) as (Hv & _).
  rewrite ConsumerFacts.handler_batches_app, Hv, app_nil_r. exact Hh.
Qed.

(** X22.  A batch size of 1 or less (0 and negative values included) turns
    batching off rather than failing: every record goes to the handler at
    once, alone in its batch, and nothing ever waits in the buffer. *)
Theorem small_batch_size_handles_each_record_alone ops (cf : ConsumerConfig) :
  batch_size cf <= 1 ->
  let c := run w ops (__init__ w cf) in
  batch_queue c = []
  /\ Forall (fun b => length b = 1%nat) (handler_batches (trace c))
  /\ (forall r c0,
        batch_size (config c0) <= 1 -> batch_queue c0 = [] ->
        handler_batches (trace (_add_to_batch w r c0))
        = handler_batches (trace c0) ++ [[message_of r]]).
Proof.
  intros Hb c.
  assert (H : one_by_one c).
  { apply (P_run one_by_one one_by_one_add one_by_one_flush
                   one_by_one_emit (fun r c0 H => H)).
    split; [exact Hb | split; [reflexivity | constructor]]. }
  destruct H as (_ & Hq & Hh). split; [exact Hq |]. split; [exact Hh |].
  intros r c0 Hb0 Hq0.
  pose proof (add_view r c0) as H. cbv zeta in H. rewrite Hq0 in H.
  change (Z.of_nat (length ([] ++ [message_of r]))) with 1 in H.
  destruct (Z.leb_spec (batch_size (config c0)) 1) as [_ | ?]; [| lia].
  apply H.
Qed.

End WithCollaborators.

Import Examples.

Lemma small_batch_size_handles_each_record_alone_witness :
  batch_queue
    (run (quiet_broker None None)
         [AddToBatch (event_record 0 5); AddToBatch (event_record 0 6)]
         (__init__ (quiet_broker None None) (platform_config 0))) = [].
Proof.
  refine (proj1 (small_batch_size_handles_each_record_alone
                   (quiet_broker None None)
                   [AddToBatch (event_record 0 5);
                    AddToBatch (event_record 0 6)]
                   (platform_config 0) _)).
  simpl. lia.
Defined.

End ConsumerMore.

(* ===================================================================== *)
(** * Properties of the platform's message handler *)
(* ===================================================================== *)

Module PlatformFacts.

Import OptimizedKafkaConsumer CleanPlatformConsumer.

Lemma sorted_values_snoc (batch : list Message) (m : Message) :
  sorted_values (batch ++ [m]) = sort_message (sorted_values batch) m.
Proof. unfold sorted_values. rewrite foldl_app. reflexivity. Qed.

Lemma sorted_values_filter (batch : list Message) :
  sorted_values batch
  = (value <$> filter (fun m => topic m = "platform-events"%string) batch,
     value <$> filter (fun m => topic m = "platform-metrics"%string) batch).
Proof.
  induction batch as [| m batch IH] using rev_ind; [reflexivity |].
  rewrite sorted_values_snoc, IH, !filter_app, !fmap_app.
  unfold sort_message. simpl.
  rewrite !filter_cons, !filter_nil.
  destruct (String.eqb_spec (topic m) "platform-events") as [E | E].
  - rewrite decide_True by exact E.
    rewrite decide_False by (rewrite E; discriminate).
    simpl. rewrite app_nil_r. reflexivity.
  - rewrite decide_False by exact E.
    destruct (String.eqb_spec (topic m) "platform-metrics") as [E' | E'].
    + rewrite decide_True by exact E'. simpl. rewrite app_nil_r. reflexivity.
    + rewrite decide_False by exact E'. simpl. rewrite !app_nil_r.
      reflexivity.
Qed.

(** X23.  [process_messages] sorts a batch by topic without reordering: the
    events are the values of the [platform-events] messages in batch order,
    the metrics those of the [platform-metrics] messages; events are
    processed first, and only a non-empty list is processed; messages of any
    other topic are dropped silently, so a batch of foreign topics only is
    accepted without anything being processed. *)
Theorem process_messages_sorts_by_topic (batch : list Message) :
  let events :=
    value <$> filter (fun m => topic m = "platform-events"%string) batch in
  let metrics :=
    value <$> filter (fun m => topic m = "platform-metrics"%string) batch in
  process_messages batch
  = (match events with [] => [] | _ => [ProcessEvents events] end)
    ++ (match metrics with [] => [] | _ => [ProcessMetrics metrics] end)
  /\ (length events + length metrics <= length batch)%nat
  /\ (Forall (fun m => topic m <> "platform-events"%string
                       /\ topic m <> "platform-metrics"%string) batch ->
      process_messages batch = []).
Proof.
  cbv zeta. unfold process_messages. rewrite sorted_values_filter.
  split; [reflexivity |]. split.
  - rewrite !length_fmap.
    induction batch as [| m batch IH]; [simpl; lia |].
    rewrite !filter_cons. simpl length.
    destruct (decide (topic m = "platform-events"%string)) as [E | E];
      destruct (decide (topic m = "platform-metrics"%string)) as [E' | E'];
      simpl; try lia.
    rewrite E in E'. discriminate.
  - intros Hall.
    assert (H : filter (fun m => topic m = "platform-events"%string) batch
                = []
                /\ filter (fun m => topic m = "platform-metrics"%string) batch
                   = []).
    { induction Hall as [| m batch [Hm Hm'] _ [IH IH']]; [split; reflexivity |].
      rewrite !filter_cons, decide_False by exact Hm.
      rewrite decide_False by exact Hm'. split; assumption. }
    destruct H as [-> ->]. reflexivity.
Qed.

End PlatformFacts.

(* ===================================================================== *)
(** * From records to messages *)
(* ===================================================================== *)

Module RecordFacts.

Import OptimizedKafkaConsumer.

Lemma headers_dict_snoc (hs : list (string * string)) (kv : string * string) :
  headers_dict (hs ++ [kv]) = <[kv.1 := kv.2]> (headers_dict hs).
Proof. unfold headers_dict. rewrite foldl_app. reflexivity. Qed.

(** X24.  The message built for a record copies its topic, partition,
    offset, key, value and timestamp, and has no [retry_count].  Its headers
    are a dictionary: a header that occurs several times keeps the value of
    its last occurrence, a header that does not occur is absent, and a record
    without headers gives the empty dictionary. *)
Theorem message_of_record (r : ConsumerRecord) :
  let m := message_of r in
  topic m = r_topic r /\ partition m = r_partition r
  /\ offset m = r_offset r /\ key m = r_key r /\ value m = r_value r
  /\ timestamp m = r_timestamp r
  /\ retry_count m = None
  /\ (forall k : string,
        headers m !! k
        = last ((filter (fun kv : string * string => kv.1 = k)
                        (r_headers r)).*2))
  /\ (r_headers r = [] -> headers m = ∅).
Proof.
  cbv zeta. repeat match goal with |- _ /\ _ => split end; try reflexivity.
  - intros k. simpl. induction (r_headers r) as [| kv hs IH] using rev_ind;
      [reflexivity |].
    rewrite headers_dict_snoc, filter_app, fmap_app, filter_cons, filter_nil.
    destruct (decide (kv.1 = k)) as [<- | Hne].
    + rewrite lookup_insert_eq. simpl. rewrite last_snoc. reflexivity.
    + rewrite lookup_insert_ne by exact Hne. simpl. rewrite app_nil_r.
      exact IH.
  - intros H. simpl. rewrite H. reflexivity.
Qed.

End RecordFacts.

(* ===================================================================== *)
(** * The whole recovery cycle *)
(* ===================================================================== *)

Module RecoveryFacts.

Import CircuitBreaker.

Section WithCallable.

Context {Args Value : Type}.

Local Abbreviation breaker := (t Args Value).

Implicit Types (b : breaker).

Lemma state_refresh_idempotent now b :
  state_refresh now (state_refresh now b) = state_refresh now b.
Proof.
  destruct (BreakerFacts.state_refresh_cases now b) as [H | (_ & _ & H)].
  - rewrite !H. reflexivity.
  - rewrite H. reflexivity.
Qed.

(** A call sees the breaker only through the state query it starts with. *)
Lemma call_refresh b (ck : call_clock) (func : Args -> outcome Value)
    (args : Args) :
  call ck func args (state_refresh (at_check ck) b) = call ck func args b.
Proof. unfold call, state. rewrite state_refresh_idempotent. reflexivity. Qed.

(** X25.  An open breaker recovers: if the first of a run of successful
    calls comes at least [recovery_timeout] after the last failure, it is let
    through as the probe, and once [success_threshold] calls of the run have
    succeeded the breaker is CLOSED again with its failure counter at 0. *)
Theorem open_breaker_recovers b (ck : call_clock)
    (func : Args -> outcome Value) (args : Args)
    (more : list (attempt Args Value)) lf :
  _state b = OPEN ->
  _last_failure_time b = Some lf -> lf <> 0 ->
  recovery_timeout (cfg b) <= at_check ck - lf ->
  Forall succeeds ((ck, func, args) :: more) ->
  success_threshold (cfg b) <= Z.of_nat (S (length more)) ->
  invoked_func (call ck func args b).1 = true
  /\ _state (call_all ((ck, func, args) :: more) b) = CLOSED
  /\ _failure_count (call_all ((ck, func, args) :: more) b) = 0.
Proof.
  intros Ho Hl Hz Ht Hall Hn.
  assert (Hr : state_refresh (at_check ck) b = _transition_to_half_open b).
  { unfold state_refresh.
    rewrite Ho, (BreakerFacts.should_attempt_reset_true _ b lf Hl Hz Ht).
    reflexivity. }
  split.
  - apply BreakerFacts.call_invokes_unless_open. unfold state.
    rewrite Hr. discriminate.
  - assert (Heq : call_all ((ck, func, args) :: more) b
                  = call_all ((ck, func, args) :: more)
                             (_transition_to_half_open b)).
    { unfold call_all. simpl. rewrite <- (call_refresh b), Hr. reflexivity. }
    rewrite Heq.
    apply BreakerFacts.half_open_successes;
      [exact Hall | reflexivity | discriminate | simpl; lia].
Qed.

End WithCallable.

Import Examples.

Lemma open_breaker_recovers_witness :
  _state (call_all [(within_second 1060, query_returns, tt);
                    (within_second 1061, query_returns, tt)]
            (run [failure_at 1000] (postgres_main None))) = CLOSED.
Proof.
  refine (proj1 (proj2 (open_breaker_recovers
                          (run [failure_at 1000] (postgres_main None))
                          (within_second 1060) query_returns tt
                          [(within_second 1061, query_returns, tt)]
                          1000 _ _ _ _ _ _))).
  - reflexivity.
  - reflexivity.
  - discriminate.
  - vm_compute. discriminate.
  - repeat constructor; eexists; reflexivity.
  - vm_compute. discriminate.
Defined.

End RecoveryFacts.
